(** * The argument splitter of [src/util/argument-splitter.ts]

    A shallow embedding of the character-scanning state machine
    [ArgumentSplitter] and of the container [SplitArgumentArray] it returns,
    followed by the properties of the scanner that the specification states.

    Conventions of the embedding.
    - A JavaScript string is a [string]; a character handed to the scanner is
      itself a string, of length one, or the empty string for the synthetic
      end-of-input marker, exactly as [content.charAt(i)] and [''] are.
      A code unit is an [ascii]: the scanner compares a character with nine
      ASCII characters only and sends every other one to the default arm.
    - A JavaScript number that holds an index or a counter is a [Z].
      [Math.floor(a / b)] is [Z.div] (the divisor is the positive constant 3
      or 2) and [a % b] is [Z.rem].
    - [undefined] is [None] of an option type.
    - The fields of an [ArgumentSplitter] instance form a record; a method is
      a function from the record to the record.  A method that can throw
      returns a [completion], which carries the instance as the throw left
      it, so that a second call on the same instance can be expressed.
    - The array a [SplitArgumentArray] holds after [split] is the [args]
      array of the instance itself; the model returns its contents at the
      moment [split] returns. *)

From Stdlib Require Import ZArith List String Ascii Bool Lia.
Import ListNotations.

Local Open Scope Z_scope.
Local Open Scope string_scope.

(** ** Characters the scanner distinguishes *)

Definition chr (a : ascii) : string := String a EmptyString.

Definition backslash : string := "\".
Definition doubleQuote : string := chr "034"%char.
Definition backtick : string := "`".
Definition space : string := " ".
Definition formFeed : string := chr "012"%char.
Definition lineFeed : string := chr "010"%char.
Definition carriageReturn : string := chr "013"%char.
Definition tab : string := chr "009"%char.
Definition verticalTab : string := chr "011"%char.

(** [isWhitespace] collects the six [case] labels of the whitespace arm of
    the [switch] in [consumeNormalChar]. *)
Definition isWhitespace (char : string) : bool :=
  (char =? space) || (char =? formFeed) || (char =? lineFeed)
  || (char =? carriageReturn) || (char =? tab) || (char =? verticalTab).

(** [String.prototype.charAt]: the one-character string at [i], or the empty
    string when [i] is out of range. *)
Definition charAt (s : string) (i : Z) : string :=
  if (i <? 0)%Z then EmptyString
  else match String.get (Z.to_nat i) s with
       | Some a => chr a
       | None => EmptyString
       end.

(** [String.prototype.repeat], for a count that is not negative.  The scanner
    repeats a backtick [present] or [present % 3] times, and [present] is
    never negative on an instance that [split] alone has acted on (see
    [reachable_Counters] below). *)
Fixpoint repeatString (s : string) (n : nat) : string :=
  match n with
  | O => EmptyString
  | S n' => s ++ repeatString s n'
  end.

(** [String.prototype.substring(start, end)] as ECMAScript defines it: an
    [undefined] start counts as 0 and an [undefined] end as the length, both
    are clamped to the string, and they are swapped when out of order. *)
Definition jsSubstring (s : string) (start end_ : option Z) : string :=
  let len := Z.of_nat (String.length s) in
  let intStart := match start with Some x => x | None => 0 end in
  let intEnd := match end_ with Some x => x | None => len end in
  let finalStart := Z.min (Z.max intStart 0) len in
  let finalEnd := Z.min (Z.max intEnd 0) len in
  let from := Z.min finalStart finalEnd in
  let to := Z.max finalStart finalEnd in
  String.substring (Z.to_nat from) (Z.to_nat (to - from)) s.

(** ** [enum GroupType] *)

Module GroupType.

Inductive t : Set := New | None | DoubleQuote | CodeBacktick.

Definition eqb (a b : t) : bool :=
  match a, b with
  | New, New | None, None | DoubleQuote, DoubleQuote
  | CodeBacktick, CodeBacktick => true
  | _, _ => false
  end.

End GroupType.

(** ** [class SplitArgument] *)

Record SplitArgument : Set := mkSplitArgument {
  content : string;
  type : GroupType.t;
  originalIndex : Z
}.

Definition isNormal (a : SplitArgument) : bool :=
  GroupType.eqb (type a) GroupType.None.
Definition isQuoted (a : SplitArgument) : bool :=
  GroupType.eqb (type a) GroupType.DoubleQuote.
Definition isCode (a : SplitArgument) : bool :=
  GroupType.eqb (type a) GroupType.CodeBacktick.

(** ** [class ArgumentSplitterError]

    One constructor per message the source builds. *)
Inductive ArgumentSplitterError : Set :=
| UnknownBackticksToMatch
| ImpossibleGroupState (g : GroupType.t)
| UnfinishedGroup (g : GroupType.t).

Definition isInternalError (e : ArgumentSplitterError) : bool :=
  match e with
  | UnknownBackticksToMatch | ImpossibleGroupState _ => true
  | UnfinishedGroup _ => false
  end.

(** ** [class SplitArgumentArray] *)

Module SplitArgumentArray.

Record t : Set := make {
  original : string;
  _args : list SplitArgument
}.

Definition args (a : t) : list SplitArgument := _args a.

Definition length (a : t) : Z := Z.of_nat (List.length (args a)).

(** [this.args[i]]: [undefined] unless [i] is an index of the array. *)
Definition at_ (a : t) (i : Z) : option SplitArgument :=
  if ((0 <=? i) && (i <? length a))%Z then nth_error (args a) (Z.to_nat i)
  else None.

Definition get (a : t) (i : Z) : option string :=
  option_map content (at_ a i).

(** [restore(start, end?)]; an omitted [end] is [None]. *)
Definition restore (a : t) (start : Z) (end_ : option Z) : string :=
  jsSubstring (original a)
    (option_map originalIndex (at_ a start))
    (match end_ with
     | Some e => option_map originalIndex (at_ a e)
     | None => None
     end).

End SplitArgumentArray.

(** ** [class ArgumentSplitter] *)

Module ArgumentSplitter.

Record Backticks : Set := mkBackticks { past : Z; present : Z }.

Record t : Set := make {
  escaped : bool;
  startOfCurrentGroup : Z;
  group : GroupType.t;
  next : string;
  backticks : Backticks;
  args : list SplitArgument
}.

(** The field initialisers: the instance [new ArgumentSplitter()]. *)
Definition new : t :=
  make false 0 GroupType.New EmptyString (mkBackticks 0 0) [].

Definition maxBackticksToFormAGroup : Z := 3.

Definition setEscaped (b : bool) (s : t) : t :=
  make b (startOfCurrentGroup s) (group s) (next s) (backticks s) (args s).
Definition setStartOfCurrentGroup (i : Z) (s : t) : t :=
  make (escaped s) i (group s) (next s) (backticks s) (args s).
Definition setGroup (g : GroupType.t) (s : t) : t :=
  make (escaped s) (startOfCurrentGroup s) g (next s) (backticks s) (args s).
Definition setNext (n : string) (s : t) : t :=
  make (escaped s) (startOfCurrentGroup s) (group s) n (backticks s) (args s).
Definition setPast (n : Z) (s : t) : t :=
  make (escaped s) (startOfCurrentGroup s) (group s) (next s)
       (mkBackticks n (present (backticks s))) (args s).
Definition setPresent (n : Z) (s : t) : t :=
  make (escaped s) (startOfCurrentGroup s) (group s) (next s)
       (mkBackticks (past (backticks s)) n) (args s).
Definition setArgs (l : list SplitArgument) (s : t) : t :=
  make (escaped s) (startOfCurrentGroup s) (group s) (next s) (backticks s) l.

(** What a method that may throw leaves behind: the value it returned or
    the error it threw, and the instance in either case. *)
Inductive completion (A : Type) : Type :=
| Normal (a : A) (s : t)
| Throw (e : ArgumentSplitterError) (s : t).
Arguments Normal {A} a s.
Arguments Throw {A} e s.

Definition instanceOf {A : Type} (c : completion A) : t :=
  match c with Normal _ s | Throw _ s => s end.

Definition pushArg (s : t) : t :=
  let s :=
    if negb (next s =? EmptyString)
       || (negb (GroupType.eqb (group s) GroupType.None)
           && negb (GroupType.eqb (group s) GroupType.New))
    then
      setNext EmptyString
        (setArgs (args s ++ [mkSplitArgument (next s) (group s) (startOfCurrentGroup s)]) s)
    else s in
  setGroup GroupType.New s.

Definition newGroup (type : GroupType.t) (i : Z) (s : t) : t :=
  setStartOfCurrentGroup i (setGroup type s).

Definition appendChar (char : string) (i : Z) (s : t) : t :=
  let s :=
    if GroupType.eqb (group s) GroupType.New && negb (char =? EmptyString)
    then newGroup GroupType.None i s
    else s in
  setEscaped false (setNext (next s ++ char) s).

Definition consumeNormalChar (char : string) (i : Z) (s : t) : t :=
  if char =? backslash then
    let s := setEscaped (negb (escaped s)) s in
    if negb (escaped s) then appendChar char i s else s
  else if char =? doubleQuote then
    if GroupType.eqb (group s) GroupType.DoubleQuote then
      if negb (escaped s) then pushArg s else appendChar char i s
    else if GroupType.eqb (group s) GroupType.New
            || GroupType.eqb (group s) GroupType.None then
      if negb (escaped s)
      then newGroup GroupType.DoubleQuote i (pushArg s)
      else appendChar char i s
    else appendChar char i s
  else if isWhitespace char then
    if GroupType.eqb (group s) GroupType.None
       || GroupType.eqb (group s) GroupType.New
    then pushArg s
    else appendChar char i s
  else if char =? EmptyString then
    if GroupType.eqb (group s) GroupType.None then pushArg s else s
  else appendChar char i s.

(** The [for] loop of [handleExtraBackticks]: [n] iterations left, each one
    opening and at once pushing a code group at [lookbackIndex]. *)
Fixpoint completeGroupsLoop (n : nat) (lookbackIndex : Z) (s : t) : Z * t :=
  match n with
  | O => (lookbackIndex, s)
  | S n' =>
      completeGroupsLoop n'
        (lookbackIndex + maxBackticksToFormAGroup * 2)
        (pushArg (newGroup GroupType.CodeBacktick lookbackIndex s))
  end.

Definition handleExtraBackticks (i : Z) (s : t) : t :=
  let maxGroups := present (backticks s) / maxBackticksToFormAGroup in
  let leftOver := Z.rem (present (backticks s)) maxBackticksToFormAGroup in
  let completeGroups := maxGroups / 2 in
  let endsWithNewMaxGroup := (Z.rem maxGroups 2 =? 1)%Z in
  let lookbackIndex := i - present (backticks s) in
  let '(lookbackIndex, s) :=
    completeGroupsLoop (Z.to_nat completeGroups) lookbackIndex s in
  let s :=
    setPast (if endsWithNewMaxGroup then maxBackticksToFormAGroup else leftOver) s in
  let s := setPresent 0 s in
  if endsWithNewMaxGroup then
    appendChar (repeatString backtick (Z.to_nat leftOver)) i
      (newGroup GroupType.CodeBacktick lookbackIndex s)
  else if negb (leftOver =? 0)%Z then
    newGroup GroupType.CodeBacktick lookbackIndex s
  else s.

(** After a run of backticks is resolved the character that ended it is
    consumed: both call sites of [handleExtraBackticks] end this way. *)
Definition consumeAfterBackticks (char : string) (i : Z) (s : t) : t :=
  if GroupType.eqb (group s) GroupType.CodeBacktick
  then appendChar char i s
  else consumeNormalChar char i s.

Definition consumeChar (char : string) (i : Z) (s : t) : completion unit :=
  if GroupType.eqb (group s) GroupType.DoubleQuote then
    Normal tt (consumeNormalChar char i s)
  else if (char =? backtick) && negb (escaped s) then
    Normal tt (setPresent (present (backticks s) + 1) s)
  else if negb (present (backticks s) =? 0)%Z then
    if GroupType.eqb (group s) GroupType.None
       || GroupType.eqb (group s) GroupType.New then
      let s := pushArg s in
      let s := setGroup GroupType.CodeBacktick s in
      let s := handleExtraBackticks i s in
      Normal tt (consumeAfterBackticks char i s)
    else if GroupType.eqb (group s) GroupType.CodeBacktick then
      if (past (backticks s) =? 0)%Z then Throw UnknownBackticksToMatch s
      else if (present (backticks s) <? past (backticks s))%Z then
        Normal tt
          (appendChar (repeatString backtick (Z.to_nat (present (backticks s)))) i s)
      else
        let s := setPresent (present (backticks s) - past (backticks s)) s in
        let s := pushArg s in
        let s := handleExtraBackticks i s in
        Normal tt (consumeAfterBackticks char i s)
    else Throw (ImpossibleGroupState (group s)) s
  else Normal tt (consumeNormalChar char i s).

(** The [for] loop of [split]: [n] is the number of iterations left, that
    is [content.length - i]. *)
Fixpoint consumeLoop (content : string) (n : nat) (i : Z) (s : t) : completion unit :=
  match n with
  | O => Normal tt s
  | S n' =>
      match consumeChar (charAt content i) i s with
      | Normal _ s' => consumeLoop content n' (i + 1) s'
      | Throw e s' => Throw e s'
      end
  end.

(** [split] up to and including the synthetic end-of-input character. *)
Definition scan (content : string) (s : t) : completion unit :=
  match consumeLoop content (String.length content) 0 s with
  | Normal _ s' => consumeChar EmptyString (Z.of_nat (String.length content)) s'
  | Throw e s' => Throw e s'
  end.

Definition split (content : string) (s : t) : completion SplitArgumentArray.t :=
  match scan content s with
  | Normal _ s' =>
      if negb (GroupType.eqb (group s') GroupType.New)
      then Throw (UnfinishedGroup (group s')) s'
      else Normal (SplitArgumentArray.make content (args s')) s'
  | Throw e s' => Throw e s'
  end.

End ArgumentSplitter.

Import ArgumentSplitter.

(** ** Predicates used to state the properties *)

(** A finalized token lies at an offset between 0 and [hi] and carries a
    kind other than the transient [New]. *)
Definition tokenOk (hi : Z) (a : SplitArgument) : Prop :=
  0 <= originalIndex a <= hi /\ type a <> GroupType.New.

(** Start offsets do not decrease along the list. *)
Definition nondecreasing (l : list SplitArgument) : Prop :=
  forall (p q : nat) (a b : SplitArgument),
    (p <= q)%nat ->
    nth_error l p = Some a -> nth_error l q = Some b ->
    originalIndex a <= originalIndex b.

(** What holds of an instance between any two method calls of a scan. *)
Record Core (s : ArgumentSplitter.t) : Prop := mkCore {
  core_start : 0 <= startOfCurrentGroup s;
  core_sorted : nondecreasing (args s);
  core_tokens : Forall (tokenOk (startOfCurrentGroup s)) (args s);
  core_new : group s = GroupType.New -> next s = EmptyString;
  core_none : group s = GroupType.None -> next s <> EmptyString
}.

(** What holds of an instance just before the character at index [i] is
    consumed: the pending backticks are the [present] characters before [i],
    and no group starts after the first of them. *)
Record Inv (i : Z) (s : ArgumentSplitter.t) : Prop := mkInv {
  inv_core : Core s;
  inv_present : 0 <= present (backticks s);
  inv_start : startOfCurrentGroup s <= i - present (backticks s);
  inv_past : group s = GroupType.CodeBacktick -> 1 <= past (backticks s);
  inv_quote : group s = GroupType.DoubleQuote -> present (backticks s) = 0;
  inv_width : group s <> GroupType.CodeBacktick -> past (backticks s) = 0
}.

(** The condition [split] tests after the scan, with what it entails for the
    rest of the scan state: nothing buffered, no backtick pending, no width
    to match. *)
Definition neutral (s : ArgumentSplitter.t) : Prop :=
  group s = GroupType.New /\ next s = EmptyString /\
  backticks s = mkBackticks 0 0.

(** The empty code tokens one run of backticks leaves behind: [n] of them,
    six characters apart, the first at [lookbackIndex]. *)
Fixpoint emptyCodeTokens (n : nat) (lookbackIndex : Z) : list SplitArgument :=
  match n with
  | O => []
  | S n' =>
      mkSplitArgument EmptyString GroupType.CodeBacktick lookbackIndex
      :: emptyCodeTokens n' (lookbackIndex + 6)
  end.

(** [leadingOk allowBackslash s]: every character of [s] is whitespace,
    except for at most one backslash when [allowBackslash] is set. *)
Fixpoint leadingOk (allowBackslash : bool) (s : string) : bool :=
  match s with
  | EmptyString => true
  | String a rest =>
      if isWhitespace (chr a) then leadingOk allowBackslash rest
      else if (chr a =? backslash) && allowBackslash then leadingOk false rest
      else false
  end.

(** Where the first token starts, once that is settled: at the first token
    if there is one, else at the group under construction if there is one. *)
Definition firstStart (s : ArgumentSplitter.t) : option Z :=
  match args s with
  | a :: _ => Some (originalIndex a)
  | [] =>
      if GroupType.eqb (group s) GroupType.New then None
      else Some (startOfCurrentGroup s)
  end.

(** What precedes the first token of [content], just before index [i]:
    whitespace and at most one backslash; and while no token has started,
    a backslash has been met only if the next character is escaped. *)
Definition Lead (content : string) (i : Z) (s : ArgumentSplitter.t) : Prop :=
  match firstStart s with
  | Some f => leadingOk true (substring 0 (Z.to_nat f) content) = true
  | None =>
      leadingOk (escaped s)
        (substring 0 (Z.to_nat (i - present (backticks s))) content) = true
  end.

(** The instances a caller can hold: a new one, and one on which [split] has
    been called, whether it returned or threw.  ([shift] on a returned
    sequence acts on the array of the instance; it touches no other field
    and is not among the calls considered here.) *)
Inductive reachable : ArgumentSplitter.t -> Prop :=
| reachable_new : reachable new
| reachable_split (content : string) (s : ArgumentSplitter.t) :
    reachable s -> reachable (instanceOf (split content s)).

(** What holds of the backtick counters of every instance a caller can hold,
    whatever was split on it before. *)
Definition Counters (s : ArgumentSplitter.t) : Prop :=
  0 <= present (backticks s) /\
  (group s = GroupType.CodeBacktick -> 1 <= past (backticks s)).

(** [extends l l']: the list [l'] begins with all of [l]. *)
Definition extends (l l' : list SplitArgument) : Prop :=
  exists ext, l' = (l ++ ext)%list.

(** ** The rest of [class SplitArgumentArray] *)

(** An index argument of [Array.prototype.slice]: [undefined] stands for
    [default], a negative index counts from the end, and the result is
    clamped to the array. *)
Definition jsSliceIndex (len : Z) (x : option Z) (default : Z) : Z :=
  match x with
  | None => default
  | Some v => if (v <? 0)%Z then Z.max (len + v) 0 else Z.min v len
  end.

(** [Array.prototype.slice(start, end)]: a new array. *)
Definition jsArraySlice {A : Type} (l : list A) (start end_ : option Z) : list A :=
  let len := Z.of_nat (List.length l) in
  let k := jsSliceIndex len start 0 in
  let final := jsSliceIndex len end_ len in
  firstn (Z.to_nat (final - k)) (skipn (Z.to_nat k) l).

(** [shift()]: the content of the removed first argument, or [undefined],
    and the sequence as the call leaves it.  (The array it shortens is the
    one the sequence holds, which for a result of [split] is also the array
    of the splitter instance; the model follows the sequence only.) *)
Definition shift (a : SplitArgumentArray.t) : option string * SplitArgumentArray.t :=
  match SplitArgumentArray.args a with
  | [] => (None, a)
  | x :: rest =>
      (Some (content x), SplitArgumentArray.make (SplitArgumentArray.original a) rest)
  end.

(** [slice(start?, end?)]. *)
Definition slice (a : SplitArgumentArray.t) (start end_ : option Z) :
    SplitArgumentArray.t :=
  SplitArgumentArray.make (SplitArgumentArray.original a)
    (jsArraySlice (SplitArgumentArray.args a) start end_).

(** ** Inputs of a known shape *)

(** [consumeChar] on the characters of [chars] in turn, the first one at
    index [i]: what the loop of [split] does on a stretch of its input. *)
Fixpoint feed (chars : string) (i : Z) (s : ArgumentSplitter.t) : completion unit :=
  match chars with
  | EmptyString => Normal tt s
  | String c rest =>
      match consumeChar (chr c) i s with
      | Normal _ s' => feed rest (i + 1) s'
      | Throw e s' => Throw e s'
      end
  end.

Fixpoint forallChars (p : ascii -> bool) (s : string) : bool :=
  match s with
  | EmptyString => true
  | String a rest => p a && forallChars p rest
  end.

(** A character the scanner gives no meaning to. *)
Definition isOrdinaryChar (a : ascii) : bool :=
  negb (isWhitespace (chr a)) && negb (chr a =? backslash)
  && negb (chr a =? doubleQuote) && negb (chr a =? backtick).

(** Inside a quoted group every character but the double quote and the
    backslash is content. *)
Definition isQuotedChar (a : ascii) : bool :=
  negb (chr a =? doubleQuote) && negb (chr a =? backslash).

(** Inside a code group every character but the backtick and the backslash
    is content. *)
Definition isCodeChar (a : ascii) : bool :=
  negb (chr a =? backtick) && negb (chr a =? backslash).

(** Any character but the backtick. *)
Definition isNotBacktick (a : ascii) : bool := negb (chr a =? backtick).

(** A word: one ordinary character or more. *)
Definition isWord (w : string) : bool :=
  negb (w =? EmptyString) && forallChars isOrdinaryChar w.

(** A gap: whitespace only, possibly none. *)
Definition isGap (g : string) : bool :=
  forallChars (fun a => isWhitespace (chr a)) g.

(** A line of words, each after its gap. *)
Fixpoint wordsLine (l : list (string * string)) : string :=
  match l with
  | [] => EmptyString
  | (g, w) :: l' => g ++ w ++ wordsLine l'
  end.

(** The gap before every word but the first holds a character. *)
Fixpoint lineOk (first : bool) (l : list (string * string)) : bool :=
  match l with
  | [] => true
  | (g, w) :: l' =>
      (first || negb (g =? EmptyString)) && isGap g && isWord w && lineOk false l'
  end.

(** The plain tokens of the words of a line that starts at index [i]. *)
Fixpoint wordTokens (i : Z) (l : list (string * string)) : list SplitArgument :=
  match l with
  | [] => []
  | (g, w) :: l' =>
      mkSplitArgument w GroupType.None (i + Z.of_nat (String.length g))
      :: wordTokens (i + Z.of_nat (String.length g) + Z.of_nat (String.length w)) l'
  end.

(** The tokens of an instance together with the word in progress, if there
    is one, as the token it will become. *)
Definition pendingTokens (s : ArgumentSplitter.t) : list SplitArgument :=
  (args s ++
   match group s with
   | GroupType.None =>
       [mkSplitArgument (next s) GroupType.None (startOfCurrentGroup s)]
   | _ => []
   end)%list.

(** Start offsets increase along the list. *)
Definition increasing (l : list SplitArgument) : Prop :=
  forall (p q : nat) (a b : SplitArgument),
    (p < q)%nat ->
    nth_error l p = Some a -> nth_error l q = Some b ->
    originalIndex a < originalIndex b.

(** What holds of the tokens of an instance when no token or group may start
    at or after index [b]: their start offsets increase and lie below [b],
    and an open group starts after all of them and before [b]. *)
Record Spaced (b : Z) (s : ArgumentSplitter.t) : Prop := mkSpaced {
  spaced_sorted : increasing (args s);
  spaced_below : Forall (fun a => originalIndex a < b) (args s);
  spaced_open :
    group s <> GroupType.New ->
    Forall (fun a => originalIndex a < startOfCurrentGroup s) (args s) /\
    startOfCurrentGroup s < b
}.

(** * Properties *)

(** ** Strings and lists *)

Lemma GroupType_eqb_spec (a b : GroupType.t) : reflect (a = b) (GroupType.eqb a b).
Proof. destruct a, b; constructor; congruence. Qed.

Lemma append_empty_r (s : string) : s ++ EmptyString = s.
Proof. induction s as [|a s IH]; simpl; [reflexivity | now rewrite IH]. Qed.

Lemma append_eq_empty (s1 s2 : string) :
  s1 ++ s2 = EmptyString -> s1 = EmptyString /\ s2 = EmptyString.
Proof. destruct s1; simpl; [auto | discriminate]. Qed.

Lemma tokenOk_weaken (hi hi' : Z) (l : list SplitArgument) :
  hi <= hi' -> Forall (tokenOk hi) l -> Forall (tokenOk hi') l.
Proof.
  intros Hle H. eapply Forall_impl; [|exact H].
  intros a [Hb Ht]. split; [lia | exact Ht].
Qed.

Lemma nondecreasing_snoc (hi : Z) (l : list SplitArgument) (x : SplitArgument) :
  nondecreasing l -> Forall (tokenOk hi) l -> hi <= originalIndex x ->
  nondecreasing (l ++ [x]).
Proof.
  intros Hs Hf Hx p q a b Hpq Ha Hb.
  destruct (Nat.lt_ge_cases q (List.length l)) as [Hq | Hq].
  - rewrite nth_error_app1 in Ha, Hb by lia. eauto.
  - rewrite nth_error_app2 in Hb by lia.
    destruct (q - List.length l)%nat as [|k] eqn:Ek; simpl in Hb;
      [|destruct k; discriminate].
    injection Hb as <-.
    destruct (Nat.lt_ge_cases p (List.length l)) as [Hp | Hp].
    + rewrite nth_error_app1 in Ha by lia.
      apply nth_error_In in Ha.
      rewrite Forall_forall in Hf. destruct (Hf _ Ha) as [Hb _]. lia.
    + rewrite nth_error_app2 in Ha by lia.
      replace (p - List.length l)%nat with 0%nat in Ha by lia.
      simpl in Ha. injection Ha as <-. lia.
Qed.

Lemma charAt_of_nat (s : string) (n : nat) :
  charAt s (Z.of_nat n) =
  match String.get n s with Some a => chr a | None => EmptyString end.
Proof.
  unfold charAt. destruct (Z.ltb_spec (Z.of_nat n) 0) as [H | H]; [lia|].
  now rewrite Nat2Z.id.
Qed.

Lemma substring_0_snoc (n : nat) :
  forall s : string,
    substring 0 (S n) s = substring 0 n s ++ charAt s (Z.of_nat n).
Proof.
  induction n as [|n IH]; intros s; rewrite charAt_of_nat.
  - destruct s as [|c s]; [reflexivity|]. cbn. now destruct s.
  - destruct s as [|c s]; [reflexivity|].
    specialize (IH s). rewrite charAt_of_nat in IH.
    cbn [substring String.get]. cbn [substring] in IH. rewrite IH. reflexivity.
Qed.

Lemma substring_0_all (s : string) :
  forall n : nat, (String.length s <= n)%nat -> substring 0 n s = s.
Proof.
  induction s as [|c s IH]; intros n Hn.
  - now destruct n.
  - destruct n as [|n]; cbn in *; [lia|]. rewrite IH by lia. reflexivity.
Qed.

Lemma substring_split (s : string) :
  forall n : nat,
    s = substring 0 n s ++ substring n (String.length s - n) s.
Proof.
  induction s as [|c s IH]; intros n.
  - now destruct n.
  - destruct n as [|n]; cbn [substring String.length Nat.sub append].
    + rewrite substring_0_all by lia. reflexivity.
    + rewrite <- IH. reflexivity.
Qed.

Lemma leadingOk_weaken (b : bool) (s : string) :
  leadingOk b s = true -> leadingOk true s = true.
Proof.
  destruct b; [auto|]. induction s as [|a s IH]; cbn [leadingOk]; [auto|].
  destruct (isWhitespace (chr a)); [exact IH|].
  rewrite andb_false_r. discriminate.
Qed.

Lemma leadingOk_snoc_whitespace (b : bool) (s : string) (a : ascii) :
  leadingOk b s = true -> isWhitespace (chr a) = true ->
  leadingOk b (s ++ chr a) = true.
Proof.
  intros H Ha. revert b H.
  induction s as [|c s IH]; intros b H.
  - unfold chr at 1. cbn [leadingOk append]. now rewrite Ha.
  - cbn [leadingOk append] in *.
    destruct (isWhitespace (chr c)); [auto|].
    destruct ((chr c =? backslash) && b); [auto | discriminate].
Qed.

Lemma leadingOk_snoc_backslash (s : string) :
  leadingOk false s = true -> leadingOk true (s ++ backslash) = true.
Proof.
  induction s as [|c s IH]; cbn [leadingOk append]; [reflexivity|].
  destruct (isWhitespace (chr c)); [exact IH|].
  rewrite andb_false_r. discriminate.
Qed.

(** ** The methods keep [Core] *)

Ltac splitter_unfold :=
  unfold consumeAfterBackticks, consumeNormalChar, appendChar, pushArg, newGroup,
    setEscaped, setStartOfCurrentGroup, setGroup, setNext, setPast, setPresent,
    setArgs in *;
  cbn [escaped startOfCurrentGroup group next backticks args past present] in *.

Lemma pushArg_group (s : ArgumentSplitter.t) : group (pushArg s) = GroupType.New.
Proof. reflexivity. Qed.

Lemma pushArg_next (s : ArgumentSplitter.t) : next (pushArg s) = EmptyString.
Proof.
  unfold pushArg.
  destruct (String.eqb_spec (next s) EmptyString) as [E | E]; simpl.
  - destruct (_ && _); simpl; [reflexivity | exact E].
  - reflexivity.
Qed.

Lemma pushArg_frame (s : ArgumentSplitter.t) :
  escaped (pushArg s) = escaped s /\
  startOfCurrentGroup (pushArg s) = startOfCurrentGroup s /\
  backticks (pushArg s) = backticks s.
Proof. unfold pushArg. destruct (_ || _); repeat split. Qed.

Lemma pushArg_Core (s : ArgumentSplitter.t) : Core s -> Core (pushArg s).
Proof.
  destruct s as [esc st g nx bt ar]. intros [H1 H2 H3 H4 H5]. cbn in *.
  unfold pushArg; cbn.
  destruct (String.eqb_spec nx EmptyString) as [E | E]; cbn.
  - destruct g; cbn; constructor; cbn; try easy.
    + eapply nondecreasing_snoc; [eassumption | eassumption | cbn; lia].
    + apply Forall_app; split; [assumption|].
      repeat constructor; cbn; [lia | lia | discriminate].
    + eapply nondecreasing_snoc; [eassumption | eassumption | cbn; lia].
    + apply Forall_app; split; [assumption|].
      repeat constructor; cbn; [lia | lia | discriminate].
  - assert (g <> GroupType.New) by (intros ->; auto).
    constructor; cbn; try easy.
    + eapply nondecreasing_snoc; [eassumption | eassumption | cbn; lia].
    + apply Forall_app; split; [assumption|].
      repeat constructor; cbn; [lia | lia | assumption].
Qed.

Lemma newGroup_Core (g : GroupType.t) (k : Z) (s : ArgumentSplitter.t) :
  Core s -> startOfCurrentGroup s <= k ->
  g = GroupType.DoubleQuote \/ g = GroupType.CodeBacktick ->
  Core (newGroup g k s).
Proof.
  intros [H1 H2 H3 H4 H5] Hk Hg. constructor; splitter_unfold.
  - lia.
  - assumption.
  - eapply tokenOk_weaken; eassumption.
  - destruct Hg; congruence.
  - destruct Hg; congruence.
Qed.

Lemma appendChar_Core (char : string) (k : Z) (s : ArgumentSplitter.t) :
  Core s -> startOfCurrentGroup s <= k ->
  Core (appendChar char k s) /\ startOfCurrentGroup (appendChar char k s) <= k.
Proof.
  intros [H1 H2 H3 H4 H5] Hk. unfold appendChar.
  destruct (GroupType_eqb_spec (group s) GroupType.New) as [Eg | Eg];
    destruct (String.eqb_spec char EmptyString) as [Ec | Ec];
    cbn [andb negb]; splitter_unfold; (split; [constructor; cbn|]); try lia;
    try assumption; try congruence.
  - intros _. rewrite Ec, append_empty_r. auto.
  - eapply tokenOk_weaken; eassumption.
  - intros _ E. apply append_eq_empty in E. tauto.
  - intros Hn E. apply append_eq_empty in E. destruct E as [E _]. exact (H5 Hn E).
  - intros Hn E. apply append_eq_empty in E. destruct E as [E _]. exact (H5 Hn E).
Qed.

Lemma appendChar_frame (char : string) (k : Z) (s : ArgumentSplitter.t) :
  backticks (appendChar char k s) = backticks s /\
  args (appendChar char k s) = args s /\
  (group (appendChar char k s) = GroupType.CodeBacktick ->
   group s = GroupType.CodeBacktick) /\
  (group s = GroupType.CodeBacktick ->
   group (appendChar char k s) = GroupType.CodeBacktick) /\
  (group (appendChar char k s) = GroupType.DoubleQuote ->
   group s = GroupType.DoubleQuote) /\
  (group s <> GroupType.New ->
   startOfCurrentGroup (appendChar char k s) = startOfCurrentGroup s).
Proof.
  unfold appendChar. destruct (_ && _) eqn:E; splitter_unfold; repeat split; try easy;
    apply andb_prop in E; destruct E as [E _];
    destruct (GroupType_eqb_spec (group s) GroupType.New); congruence.
Qed.

Lemma consumeNormalChar_Core (char : string) (k : Z) (s : ArgumentSplitter.t) :
  Core s -> startOfCurrentGroup s <= k ->
  Core (consumeNormalChar char k s) /\
  startOfCurrentGroup (consumeNormalChar char k s) <= k.
Proof.
  intros Hc Hk. unfold consumeNormalChar.
  assert (Hp : Core (pushArg s) /\ startOfCurrentGroup (pushArg s) <= k).
  { split; [now apply pushArg_Core |]. now rewrite (proj1 (proj2 (pushArg_frame s))). }
  assert (Ha := appendChar_Core char k s Hc Hk).
  assert (Hq : Core (newGroup GroupType.DoubleQuote k (pushArg s)) /\
               startOfCurrentGroup (newGroup GroupType.DoubleQuote k (pushArg s)) <= k).
  { split; [apply newGroup_Core; tauto | cbn; lia]. }
  destruct (char =? backslash).
  { destruct (escaped s) eqn:Ee; cbn [negb].
    - apply appendChar_Core; [|assumption].
      destruct Hc; constructor; assumption.
    - destruct Hc; split; [constructor|]; assumption. }
  destruct (char =? doubleQuote).
  { destruct (GroupType.eqb (group s) GroupType.DoubleQuote);
      [destruct (negb (escaped s)); assumption|].
    destruct (_ || _); [|assumption].
    destruct (negb (escaped s)); assumption. }
  destruct (isWhitespace char).
  { destruct (_ || _); assumption. }
  destruct (char =? EmptyString); [|assumption].
  destruct (GroupType.eqb (group s) GroupType.None); [assumption | tauto].
Qed.

Lemma consumeNormalChar_frame (char : string) (k : Z) (s : ArgumentSplitter.t) :
  backticks (consumeNormalChar char k s) = backticks s /\
  (group (consumeNormalChar char k s) = GroupType.CodeBacktick ->
   group s = GroupType.CodeBacktick) /\
  (group s = GroupType.CodeBacktick ->
   group (consumeNormalChar char k s) = GroupType.CodeBacktick).
Proof.
  destruct s as [esc st g nx bt ar].
  unfold consumeNormalChar, appendChar, pushArg, newGroup.
  destruct g, esc; splitter_unfold; cbn [GroupType.eqb negb andb orb];
    repeat match goal with
           | |- context [if ?b then _ else _] => destruct b
           end;
    splitter_unfold; repeat apply conj; congruence.
Qed.

Lemma Core_backticks (s : ArgumentSplitter.t) (b : Backticks) :
  Core s ->
  Core (make (escaped s) (startOfCurrentGroup s) (group s) (next s) b (args s)).
Proof. intros [H1 H2 H3 H4 H5]. constructor; assumption. Qed.

Lemma Core_CodeBacktick (s : ArgumentSplitter.t) :
  Core s -> Core (setGroup GroupType.CodeBacktick s).
Proof. intros [H1 H2 H3 H4 H5]. constructor; cbn; try assumption; discriminate. Qed.

Lemma completeGroupsLoop_Core (n : nat) :
  forall (lookbackIndex : Z) (s : ArgumentSplitter.t),
    Core s -> startOfCurrentGroup s <= lookbackIndex ->
    let r := completeGroupsLoop n lookbackIndex s in
    Core (snd r) /\
    fst r = lookbackIndex + 6 * Z.of_nat n /\
    startOfCurrentGroup (snd r) <= fst r /\
    backticks (snd r) = backticks s /\
    (n <> 0%nat -> group (snd r) = GroupType.New) /\
    (n = 0%nat -> snd r = s).
Proof.
  induction n as [|n IH]; intros lb s Hc Hs; cbn zeta.
  - cbn. repeat apply conj; try assumption; try lia; try easy.
  - cbn [completeGroupsLoop].
    set (s1 := pushArg (newGroup GroupType.CodeBacktick lb s)).
    assert (Hc1 : Core s1).
    { apply pushArg_Core, newGroup_Core; auto. }
    assert (Hs1 : startOfCurrentGroup s1 = lb).
    { unfold s1. now rewrite (proj1 (proj2 (pushArg_frame _))). }
    assert (Hb1 : backticks s1 = backticks s).
    { unfold s1. now rewrite (proj2 (proj2 (pushArg_frame _))). }
    specialize (IH (lb + maxBackticksToFormAGroup * 2) s1 Hc1).
    unfold maxBackticksToFormAGroup in *.
    destruct IH as (I1 & I2 & I3 & I4 & I5 & I6); [lia|].
    repeat apply conj; try assumption; try lia; try congruence.
    intros _. destruct n as [|n'].
    + rewrite (I6 eq_refl). reflexivity.
    + apply I5. discriminate.
Qed.

Lemma handleExtraBackticks_Inv (i : Z) (s : ArgumentSplitter.t) :
  Core s -> 0 <= present (backticks s) ->
  startOfCurrentGroup s <= i - present (backticks s) ->
  (group s = GroupType.CodeBacktick /\ present (backticks s) <> 0) \/
  group s = GroupType.New ->
  let s' := handleExtraBackticks i s in
  Core s' /\ present (backticks s') = 0 /\ startOfCurrentGroup s' <= i /\
  (group s' = GroupType.CodeBacktick -> 1 <= past (backticks s')) /\
  (group s' <> GroupType.CodeBacktick -> past (backticks s') = 0) /\
  group s' <> GroupType.DoubleQuote /\ group s' <> GroupType.None.
Proof.
  intros Hc Hp Hs Hg. cbn zeta. unfold handleExtraBackticks.
  unfold maxBackticksToFormAGroup.
  set (p := present (backticks s)) in *.
  destruct (completeGroupsLoop_Core (Z.to_nat (p / 3 / 2)) (i - p) s Hc Hs)
    as (L1 & L2 & L3 & L4 & L5 & L6).
  destruct (completeGroupsLoop (Z.to_nat (p / 3 / 2)) (i - p) s) as [lb s1].
  cbn [fst snd] in *.
  assert (Hdiv : 0 <= p / 3 / 2 /\ 6 * (p / 3 / 2) <= p /\
                 0 <= Z.rem p 3 < 3 /\ 0 <= Z.rem (p / 3) 2 < 2 /\
                 p = 6 * (p / 3 / 2) + 3 * Z.rem (p / 3) 2 + Z.rem p 3).
  { Z.to_euclidean_division_equations. lia. }
  destruct Hdiv as (D1 & D2 & D3 & D4 & D5).
  rewrite Z2Nat.id in L2 by lia.
  assert (Hg1 : group s1 = GroupType.New \/
                (group s1 = GroupType.CodeBacktick /\ p / 3 / 2 = 0 /\ p <> 0)).
  { destruct (Nat.eq_dec (Z.to_nat (p / 3 / 2)) 0) as [En | En].
    - rewrite (L6 En). destruct Hg as [[Hg Hn] | Hg]; [right | left; exact Hg].
      repeat apply conj; [exact Hg | lia | exact Hn].
    - left. exact (L5 En). }
  destruct (Z.eqb_spec (Z.rem (p / 3) 2) 1) as [Eodd | Eodd].
  - match goal with
    | |- context [appendChar ?c i ?x] =>
        destruct (appendChar_Core c i x) as [A1 A2];
        [apply newGroup_Core; [apply Core_backticks, Core_backticks; exact L1 | cbn; lia | tauto]
        | cbn; lia |];
        destruct (appendChar_frame c i x) as (F1 & F2 & F3 & F4 & F5 & F6)
    end.
    repeat apply conj; try assumption.
    + rewrite F1. reflexivity.
    + intros _. rewrite F1. cbn. lia.
    + intros E. exfalso. apply E, F4. reflexivity.
    + intros E. apply F5 in E. discriminate.
    + rewrite F4; [discriminate | reflexivity].
  - destruct (Z.eqb_spec (Z.rem p 3) 0) as [El | El]; cbn [negb].
    + repeat apply conj; cbn.
      * apply Core_backticks with (s := setPast (Z.rem p 3) s1), Core_backticks. exact L1.
      * reflexivity.
      * lia.
      * intros E. destruct Hg1 as [Hg1 | (Hg1 & Hz & Hn)]; [congruence | lia].
      * intros _. exact El.
      * destruct Hg1 as [Hg1 | (Hg1 & Hz & Hn)]; congruence.
      * destruct Hg1 as [Hg1 | (Hg1 & Hz & Hn)]; congruence.
    + repeat apply conj; cbn.
      * apply newGroup_Core; [|cbn; lia | tauto].
        apply Core_backticks with (s := setPast (Z.rem p 3) s1), Core_backticks. exact L1.
      * reflexivity.
      * lia.
      * intros _. lia.
      * intros E. congruence.
      * discriminate.
      * discriminate.
Qed.

Lemma consumeNormalChar_Inv (char : string) (i : Z) (s : ArgumentSplitter.t) :
  Inv i s -> present (backticks s) = 0 ->
  Inv (i + 1) (consumeNormalChar char i s) /\
  startOfCurrentGroup (consumeNormalChar char i s) <= i.
Proof.
  intros [Hc Hp Hs Hpa Hq Hw] Hz.
  destruct (consumeNormalChar_Core char i s Hc) as [C1 C2]; [lia|].
  destruct (consumeNormalChar_frame char i s) as (F1 & F2 & F3).
  split; [|assumption].
  constructor; rewrite ?F1; try assumption; try lia.
  - intros E. auto.
  - intros E. apply Hw. intros E'. auto.
Qed.

Lemma consumeAfterBackticks_Inv (char : string) (i : Z) (s : ArgumentSplitter.t) :
  Core s -> present (backticks s) = 0 -> startOfCurrentGroup s <= i ->
  (group s = GroupType.CodeBacktick -> 1 <= past (backticks s)) ->
  (group s <> GroupType.CodeBacktick -> past (backticks s) = 0) ->
  Inv (i + 1) (consumeAfterBackticks char i s) /\
  startOfCurrentGroup (consumeAfterBackticks char i s) <= i.
Proof.
  intros Hc Hz Hs Hpa Hw. unfold consumeAfterBackticks.
  destruct (GroupType_eqb_spec (group s) GroupType.CodeBacktick) as [Eg | Eg].
  - destruct (appendChar_Core char i s Hc Hs) as [C1 C2].
    destruct (appendChar_frame char i s) as (F1 & F2 & F3 & F4 & F5 & F6).
    split; [|assumption].
    constructor; rewrite ?F1; try assumption; try lia.
    + intros E. auto.
    + intros E. exfalso. auto.
  - apply consumeNormalChar_Inv; [|assumption].
    constructor; try assumption; try lia.
Qed.

(** One step of the scan keeps the invariant and never throws. *)
Lemma consumeChar_Inv (char : string) (i : Z) (s : ArgumentSplitter.t) :
  Inv i s ->
  exists s', consumeChar char i s = Normal tt s' /\
             Inv (i + 1) s' /\ startOfCurrentGroup s' <= i.
Proof.
  intros HI. pose proof HI as [Hc Hp Hs Hpa Hq Hw]. unfold consumeChar.
  destruct (GroupType_eqb_spec (group s) GroupType.DoubleQuote) as [Eq | Eq].
  { eexists; split; [reflexivity|]. apply consumeNormalChar_Inv; auto. }
  destruct ((char =? backtick) && negb (escaped s)).
  { eexists; split; [reflexivity|]. split; [|cbn; lia].
    destruct Hc as [H1 H2 H3 H4 H5].
    constructor; [constructor|..]; cbn; try assumption; try lia.
    intros E. contradiction. }
  destruct (Z.eqb_spec (present (backticks s)) 0) as [Ez | Ez]; cbn [negb].
  { eexists; split; [reflexivity|]. apply consumeNormalChar_Inv; auto. }
  destruct (GroupType.eqb (group s) GroupType.None
            || GroupType.eqb (group s) GroupType.New) eqn:Enn.
  { eexists; split; [reflexivity|].
    destruct (pushArg_frame s) as (P1 & P2 & P3).
    destruct (handleExtraBackticks_Inv i (setGroup GroupType.CodeBacktick (pushArg s)))
      as (X1 & X2 & X3 & X4 & X5 & X6 & X7).
    - apply Core_CodeBacktick, pushArg_Core, Hc.
    - unfold setGroup; cbn [backticks]. rewrite P3. assumption.
    - unfold setGroup; cbn [backticks startOfCurrentGroup]. rewrite P2, P3. assumption.
    - left. unfold setGroup; cbn [backticks group]. rewrite P3. auto.
    - apply consumeAfterBackticks_Inv; assumption. }
  destruct (GroupType_eqb_spec (group s) GroupType.CodeBacktick) as [Ec | Ec].
  2:{ destruct (group s); cbn in Enn; congruence. }
  specialize (Hpa Ec).
  destruct (Z.eqb_spec (past (backticks s)) 0) as [Ep | Ep]; [lia|].
  destruct (Z.ltb_spec (present (backticks s)) (past (backticks s))) as [El | El].
  { eexists; split; [reflexivity|].
    match goal with
    | |- context [appendChar ?c i s] =>
        destruct (appendChar_Core c i s Hc) as [C1 C2]; [lia|];
        destruct (appendChar_frame c i s) as (F1 & F2 & F3 & F4 & F5 & F6)
    end.
    split; [|assumption].
    constructor; rewrite ?F1, ?F6; try assumption; try lia; try congruence.
    - intros E. apply F5 in E. congruence.
    - intros E. exfalso. auto. }
  eexists; split; [reflexivity|].
  set (s1 := setPresent (present (backticks s) - past (backticks s)) s).
  destruct (pushArg_frame s1) as (P1 & P2 & P3).
  destruct (handleExtraBackticks_Inv i (pushArg s1))
    as (X1 & X2 & X3 & X4 & X5 & X6 & X7).
  - apply pushArg_Core. unfold s1, setPresent. apply Core_backticks, Hc.
  - rewrite P3. unfold s1, setPresent; cbn [backticks present]. lia.
  - rewrite P2, P3. unfold s1, setPresent; cbn [backticks present startOfCurrentGroup]. lia.
  - right. reflexivity.
  - apply consumeAfterBackticks_Inv; assumption.
Qed.

Lemma Inv_new : Inv 0 new.
Proof.
  constructor; [constructor|..]; cbn; try lia; try easy.
  intros p q a b _ Ha. destruct p; discriminate.
Qed.

(** The [for] loop runs to its end from any state that satisfies the
    invariant. *)
Lemma consumeLoop_Inv (content : string) (n : nat) :
  forall (i : Z) (s : ArgumentSplitter.t),
    Inv i s ->
    exists s', consumeLoop content n i s = Normal tt s' /\ Inv (i + Z.of_nat n) s'.
Proof.
  induction n as [|n IH]; intros i s HI.
  - exists s. split; [reflexivity|]. now replace (i + Z.of_nat 0) with i by lia.
  - cbn [consumeLoop].
    destruct (consumeChar_Inv (charAt content i) i s HI) as (s1 & E1 & I1 & _).
    rewrite E1.
    destruct (IH (i + 1) s1 I1) as (s2 & E2 & I2).
    exists s2. split; [assumption|].
    now replace (i + Z.of_nat (S n)) with (i + 1 + Z.of_nat n) by lia.
Qed.

(** *** The synthetic end-of-input character *)

Lemma consumeNormalChar_empty (i : Z) (s : ArgumentSplitter.t) :
  consumeNormalChar EmptyString i s =
  if GroupType.eqb (group s) GroupType.None then pushArg s else s.
Proof. reflexivity. Qed.

Lemma consumeAfterBackticks_empty (i : Z) (s : ArgumentSplitter.t) :
  present (backticks s) = 0 ->
  group s <> GroupType.DoubleQuote -> group s <> GroupType.None ->
  let s' := consumeAfterBackticks EmptyString i s in
  group s' <> GroupType.None /\ present (backticks s') = 0.
Proof.
  intros Hz Hq Hn. cbn zeta. unfold consumeAfterBackticks.
  destruct (GroupType_eqb_spec (group s) GroupType.CodeBacktick) as [Ec | Ec].
  - destruct (appendChar_frame EmptyString i s) as (F1 & F2 & F3 & F4 & F5 & F6).
    rewrite F1, (F4 Ec). split; [discriminate | assumption].
  - rewrite consumeNormalChar_empty.
    destruct (GroupType_eqb_spec (group s) GroupType.None); [contradiction|].
    split; assumption.
Qed.

(** After the end-of-input character the group is [New], [DoubleQuote] or
    [CodeBacktick], and backticks are pending only inside a code group. *)
Lemma consumeChar_end (i : Z) (s s' : ArgumentSplitter.t) :
  Inv i s -> consumeChar EmptyString i s = Normal tt s' ->
  group s' <> GroupType.None /\
  (group s' <> GroupType.CodeBacktick -> present (backticks s') = 0).
Proof.
  intros [Hc Hp Hs Hpa Hq Hw]. unfold consumeChar.
  change ((EmptyString =? backtick) && negb (escaped s)) with false. cbv iota.
  rewrite consumeNormalChar_empty.
  destruct (GroupType_eqb_spec (group s) GroupType.DoubleQuote) as [Eq | Eq].
  { rewrite Eq. cbn. intros [= <-]. rewrite Eq. split; [discriminate | auto]. }
  destruct (Z.eqb_spec (present (backticks s)) 0) as [Ez | Ez]; cbn [negb].
  { destruct (GroupType_eqb_spec (group s) GroupType.None) as [En | En];
      intros [= <-].
    - rewrite pushArg_group, (proj2 (proj2 (pushArg_frame s))).
      split; [discriminate | auto].
    - split; auto. }
  destruct (GroupType.eqb (group s) GroupType.None
            || GroupType.eqb (group s) GroupType.New) eqn:Enn.
  { intros [= <-].
    destruct (pushArg_frame s) as (P1 & P2 & P3).
    destruct (handleExtraBackticks_Inv i (setGroup GroupType.CodeBacktick (pushArg s)))
      as (X1 & X2 & X3 & X4 & X5 & X6 & X7).
    - apply Core_CodeBacktick, pushArg_Core, Hc.
    - unfold setGroup; cbn [backticks]. rewrite P3. assumption.
    - unfold setGroup; cbn [backticks startOfCurrentGroup]. rewrite P2, P3. assumption.
    - left. unfold setGroup; cbn [backticks group]. rewrite P3. auto.
    - destruct (consumeAfterBackticks_empty i _ X2 X6 X7). auto. }
  destruct (GroupType_eqb_spec (group s) GroupType.CodeBacktick) as [Ec | Ec].
  2:{ destruct (group s); cbn in Enn; congruence. }
  specialize (Hpa Ec).
  destruct (Z.eqb_spec (past (backticks s)) 0) as [Ep | Ep]; [lia|].
  destruct (Z.ltb_spec (present (backticks s)) (past (backticks s))) as [El | El].
  { intros [= <-].
    match goal with
    | |- context [appendChar ?c i s] =>
        destruct (appendChar_frame c i s) as (F1 & F2 & F3 & F4 & F5 & F6)
    end.
    rewrite (F4 Ec). split; [discriminate | intros E; now elim E]. }
  intros [= <-].
  set (s1 := setPresent (present (backticks s) - past (backticks s)) s).
  destruct (pushArg_frame s1) as (P1 & P2 & P3).
  destruct (handleExtraBackticks_Inv i (pushArg s1))
    as (X1 & X2 & X3 & X4 & X5 & X6 & X7).
  - apply pushArg_Core. unfold s1, setPresent. apply Core_backticks, Hc.
  - rewrite P3. unfold s1, setPresent; cbn [backticks present]. lia.
  - rewrite P2, P3. unfold s1, setPresent; cbn [backticks present startOfCurrentGroup]. lia.
  - right. reflexivity.
  - destruct (consumeAfterBackticks_empty i _ X2 X6 X7). auto.
Qed.

(** The whole scan of a fresh instance ends normally, in a state that
    satisfies the invariant, opens no group beyond the end of [content], and
    is either neutral or inside a quoted or code group. *)
Lemma scan_new (content : string) :
  exists s', scan content new = Normal tt s' /\
             Inv (Z.of_nat (String.length content) + 1) s' /\
             startOfCurrentGroup s' <= Z.of_nat (String.length content) /\
             (neutral s' \/ group s' = GroupType.DoubleQuote \/
              group s' = GroupType.CodeBacktick).
Proof.
  unfold scan.
  destruct (consumeLoop_Inv content (String.length content) 0 new Inv_new)
    as (s1 & E1 & I1).
  rewrite E1. cbn [Z.add] in I1.
  destruct (consumeChar_Inv EmptyString _ s1 I1) as (s2 & E2 & I2 & B2).
  destruct (consumeChar_end _ _ _ I1 E2) as [N1 N2].
  exists s2. repeat apply conj; try assumption.
  destruct I2 as [[H1 H2 H3 H4 H5] Hp Hs Hpa Hq Hw].
  destruct (group s2) eqn:Eg; try tauto; try congruence.
  left. unfold neutral.
  assert (Hn : GroupType.New <> GroupType.CodeBacktick) by discriminate.
  specialize (N2 Hn). specialize (Hw Hn).
  repeat apply conj; auto.
  destruct (backticks s2); cbn in *. congruence.
Qed.

(** ** What [split] returns on a fresh instance *)

Lemma split_new_inversion (content : string) (r : SplitArgumentArray.t)
    (s : ArgumentSplitter.t) :
  split content new = Normal r s ->
  scan content new = Normal tt s /\
  r = SplitArgumentArray.make content (args s) /\
  neutral s /\ Core s /\
  startOfCurrentGroup s <= Z.of_nat (String.length content).
Proof.
  unfold split.
  destruct (scan_new content) as (s' & E & I & B & G).
  rewrite E.
  destruct (GroupType_eqb_spec (group s') GroupType.New) as [Eg | Eg]; cbn [negb];
    [|discriminate].
  intros [= <- <-].
  split; [reflexivity|]. split; [reflexivity|].
  split; [|split; [apply I | exact B]].
  destruct G as [G | [G | G]]; [assumption | congruence | congruence].
Qed.

(** C7.  On every input on which [split] succeeds, the start offsets of the
    returned tokens do not decrease along the list, and every token is a
    plain word, a quoted group or a code group: the transient kind [New]
    never reaches a token. *)
Theorem split_offsets_nondecreasing_kinds_final
    (content : string) (r : SplitArgumentArray.t) (s : ArgumentSplitter.t) :
  split content new = Normal r s ->
  nondecreasing (SplitArgumentArray.args r) /\
  Forall (fun a => isNormal a || isQuoted a || isCode a = true)
         (SplitArgumentArray.args r).
Proof.
  intros H. apply split_new_inversion in H.
  destruct H as (_ & -> & _ & [H1 H2 H3 H4 H5] & _).
  split; [exact H2|].
  cbn. eapply Forall_impl; [|exact H3].
  intros a [_ Ht]. unfold isNormal, isQuoted, isCode.
  destruct (type a); [contradiction | reflexivity..].
Qed.

Lemma split_offsets_nondecreasing_kinds_final_witness :
  exists r,
    split "say ``a b`` `c`" new =
      Normal r (instanceOf (split "say ``a b`` `c`" new)) /\
    List.length (SplitArgumentArray.args r) = 3%nat /\
    nondecreasing (SplitArgumentArray.args r) /\
    Forall (fun a => isNormal a || isQuoted a || isCode a = true)
           (SplitArgumentArray.args r).
Proof.
  eexists.
  split; [vm_compute; reflexivity|].
  split; [reflexivity|].
  apply (split_offsets_nondecreasing_kinds_final "say ``a b`` `c`" _
           (instanceOf (split "say ``a b`` `c`" new))).
  vm_compute. reflexivity.
Defined.

(** C5.  [split] on a fresh instance always completes its scan, and then
    fails exactly when the state after the end-of-input character is not
    neutral: a neutral state returns the token sequence, any other state has
    a quoted or code group open and throws the unfinished-group error.  An
    opening double quote followed by abc is such an input. *)
Theorem split_fails_iff_group_left_open (content : string) :
  (exists s',
     scan content new = Normal tt s' /\
     ((neutral s' /\
       split content new = Normal (SplitArgumentArray.make content (args s')) s') \/
      (~ neutral s' /\
       (group s' = GroupType.DoubleQuote \/ group s' = GroupType.CodeBacktick) /\
       split content new = Throw (UnfinishedGroup (group s')) s'))) /\
  (exists s,
     split (doubleQuote ++ "abc") new = Throw (UnfinishedGroup GroupType.DoubleQuote) s).
Proof.
  split.
  - destruct (scan_new content) as (s' & E & I & B & G).
    exists s'. split; [exact E|]. unfold split. rewrite E.
    destruct G as [G | G].
    + left. split; [exact G|]. destruct G as (G & _). rewrite G. reflexivity.
    + right. repeat apply conj.
      * intros (N & _). destruct G; congruence.
      * exact G.
      * destruct G as [G | G]; rewrite G; reflexivity.
  - eexists. vm_compute. reflexivity.
Qed.

(** C8.  The five characters backslash, double quote, f, o, o split into one
    plain token whose content is the double quote followed by foo: the
    escaped quote is an ordinary character and opens no group. *)
Theorem split_escaped_quote_is_plain :
  String.length (backslash ++ doubleQuote ++ "foo") = 5%nat /\
  exists s,
    split (backslash ++ doubleQuote ++ "foo") new =
    Normal (SplitArgumentArray.make (backslash ++ doubleQuote ++ "foo")
              [mkSplitArgument (doubleQuote ++ "foo") GroupType.None 1]) s /\
    isNormal (mkSplitArgument (doubleQuote ++ "foo") GroupType.None 1) = true /\
    String.length (doubleQuote ++ "foo") = 4%nat.
Proof.
  split; [reflexivity|].
  eexists. repeat apply conj; vm_compute; reflexivity.
Qed.

(** C3, as the code has it.  Six backticks and nothing else split into
    exactly one empty code token at offset 0: the two width-3 units pair up
    as the opener and the closer of a single complete group. *)
Theorem split_six_backticks :
  exists s,
    split "``````" new =
    Normal (SplitArgumentArray.make "``````"
              [mkSplitArgument EmptyString GroupType.CodeBacktick 0]) s /\
    neutral s.
Proof.
  eexists. split; [vm_compute; reflexivity|].
  repeat apply conj; reflexivity.
Qed.

(** C3, as the specification states it, fails: the sequence returned for six
    backticks does not consist of two empty code tokens. *)
Lemma split_six_backticks_not_two_tokens :
  (exists r s, split "``````" new = Normal r s /\
               List.length (SplitArgumentArray.args r) = 1%nat) /\
  ~ (exists r s o1 o2,
       split "``````" new = Normal r s /\
       SplitArgumentArray.args r =
       [mkSplitArgument EmptyString GroupType.CodeBacktick o1;
        mkSplitArgument EmptyString GroupType.CodeBacktick o2]).
Proof.
  split.
  - eexists. eexists. split; [vm_compute; reflexivity | reflexivity].
  - intros (r & s & o1 & o2 & H & A).
    vm_compute in H. injection H as <- <-. discriminate A.
Qed.

(** C2, evaluated.  On the input of two backticks, a, one backtick, b, two
    backticks, the single backtick is appended to the open width-2 group but
    stays counted as pending and the character b is not consumed; the two
    closing backticks then make a run of three, which closes the group with
    content a-backtick and opens a width-1 group that the input never closes.
    [split] throws the unfinished-group error. *)
Theorem split_short_backtick_run_in_code_group :
  split "``a`b``" new =
  Throw (UnfinishedGroup GroupType.CodeBacktick)
        (make false 6 GroupType.CodeBacktick EmptyString (mkBackticks 1 0)
              [mkSplitArgument "a`" GroupType.CodeBacktick 0]) /\
  consumeLoop "``a`b``" 5 0 new =
  Normal tt (make false 0 GroupType.CodeBacktick "a`" (mkBackticks 2 1) []).
Proof. split; vm_compute; reflexivity. Qed.

(** ** The resolution of a run of backticks *)

Lemma emptyCodeTokens_length (n : nat) (lookbackIndex : Z) :
  List.length (emptyCodeTokens n lookbackIndex) = n.
Proof.
  revert lookbackIndex. induction n as [|n IH]; intros lb; cbn; [reflexivity|].
  now rewrite IH.
Qed.

Lemma emptyCodeTokens_Forall (n : nat) (lookbackIndex : Z) :
  Forall (fun a => content a = EmptyString /\ isCode a = true)
         (emptyCodeTokens n lookbackIndex).
Proof.
  revert lookbackIndex. induction n as [|n IH]; intros lb; cbn; constructor.
  - split; reflexivity.
  - apply IH.
Qed.

Lemma pushArg_empty_code (s : ArgumentSplitter.t) :
  next s = EmptyString -> group s = GroupType.CodeBacktick ->
  pushArg s =
  make (escaped s) (startOfCurrentGroup s) GroupType.New EmptyString (backticks s)
       (args s ++ [mkSplitArgument EmptyString GroupType.CodeBacktick
                     (startOfCurrentGroup s)]).
Proof.
  destruct s as [esc st g nx bt ar]. cbn. intros -> ->. reflexivity.
Qed.

Lemma completeGroupsLoop_spec (n : nat) :
  forall (lookbackIndex : Z) (s : ArgumentSplitter.t),
    next s = EmptyString ->
    let r := completeGroupsLoop n lookbackIndex s in
    fst r = lookbackIndex + 6 * Z.of_nat n /\
    args (snd r) = (args s ++ emptyCodeTokens n lookbackIndex)%list /\
    next (snd r) = EmptyString /\
    escaped (snd r) = escaped s /\
    backticks (snd r) = backticks s /\
    (n <> 0%nat -> group (snd r) = GroupType.New) /\
    (n = 0%nat -> snd r = s).
Proof.
  induction n as [|n IH]; intros lb s Hn; cbn zeta.
  - cbn. rewrite app_nil_r. repeat apply conj; try easy; lia.
  - cbn [completeGroupsLoop emptyCodeTokens].
    rewrite (pushArg_empty_code (newGroup GroupType.CodeBacktick lb s))
      by (try assumption; reflexivity).
    cbn [newGroup setStartOfCurrentGroup setGroup escaped startOfCurrentGroup
         group next backticks args].
    match goal with
    | |- context [completeGroupsLoop n ?l ?x] =>
        destruct (IH l x eq_refl) as (I1 & I2 & I3 & I4 & I5 & I6 & I7)
    end.
    cbn [escaped startOfCurrentGroup group next backticks args] in *.
    unfold maxBackticksToFormAGroup in *.
    repeat apply conj; try assumption; try lia.
    + rewrite I2, <- app_assoc. reflexivity.
    + intros _. destruct n as [|n'].
      * rewrite (I7 eq_refl). reflexivity.
      * apply I6. discriminate.
Qed.

(** [handleExtraBackticks] in closed form, for the states both call sites
    pass: nothing buffered and [present] not negative. *)
Lemma handleExtraBackticks_spec (i : Z) (s : ArgumentSplitter.t) :
  next s = EmptyString -> 0 <= present (backticks s) ->
  let p := present (backticks s) in
  let s' := handleExtraBackticks i s in
  args s' = (args s ++ emptyCodeTokens (Z.to_nat (p / 3 / 2)) (i - p))%list /\
  present (backticks s') = 0 /\
  (if Z.odd (p / 3) then
     group s' = GroupType.CodeBacktick /\ past (backticks s') = 3 /\
     next s' = repeatString backtick (Z.to_nat (p mod 3)) /\
     startOfCurrentGroup s' = i - p + 6 * (p / 3 / 2)
   else if negb (p mod 3 =? 0)%Z then
     group s' = GroupType.CodeBacktick /\ past (backticks s') = p mod 3 /\
     next s' = EmptyString /\
     startOfCurrentGroup s' = i - p + 6 * (p / 3 / 2)
   else
     past (backticks s') = 0 /\ next s' = EmptyString /\
     escaped s' = escaped s /\
     (6 <= p -> group s' = GroupType.New) /\
     (p = 0 -> group s' = group s /\
               startOfCurrentGroup s' = startOfCurrentGroup s)).
Proof.
  intros Hn Hp. cbn zeta. unfold handleExtraBackticks.
  unfold maxBackticksToFormAGroup.
  set (p := present (backticks s)) in *.
  destruct (completeGroupsLoop_spec (Z.to_nat (p / 3 / 2)) (i - p) s Hn)
    as (L1 & L2 & L3 & L4 & L5 & L6 & L7).
  destruct (completeGroupsLoop (Z.to_nat (p / 3 / 2)) (i - p) s) as [lb s1].
  cbn [fst snd] in *.
  assert (Hdiv : 0 <= p / 3 / 2 /\ 0 <= p / 3 /\
                 Z.rem p 3 = p mod 3 /\ 0 <= p mod 3 < 3 /\
                 0 <= Z.rem (p / 3) 2 < 2 /\
                 p = 6 * (p / 3 / 2) + 3 * Z.rem (p / 3) 2 + p mod 3).
  { Z.to_euclidean_division_equations. lia. }
  destruct Hdiv as (D1 & D2 & D3 & D4 & D5 & D6).
  rewrite Z2Nat.id in L1 by lia.
  assert (Hodd : Z.odd (p / 3) = (Z.rem (p / 3) 2 =? 1)%Z).
  { rewrite Zodd_mod. rewrite Z.rem_mod_nonneg by lia. reflexivity. }
  rewrite Hodd, D3.
  destruct (Z.eqb_spec (Z.rem (p / 3) 2) 1) as [Eodd | Eodd].
  - unfold appendChar.
    cbn [newGroup setStartOfCurrentGroup setGroup setPast setPresent setNext setEscaped
         escaped startOfCurrentGroup group next backticks args past present
         GroupType.eqb andb].
    rewrite L3. repeat apply conj; try reflexivity; try assumption.
  - destruct (Z.eqb_spec (p mod 3) 0) as [El | El]; cbn [negb].
    + cbn [setPast setPresent escaped startOfCurrentGroup group next backticks
           args past present].
      repeat apply conj; try reflexivity; try assumption.
      * intros H6. apply L6. lia.
      * intros H0. rewrite L7; [split; reflexivity|].
        rewrite H0. reflexivity.
    + cbn [newGroup setStartOfCurrentGroup setGroup setPast setPresent
           escaped startOfCurrentGroup group next backticks args past present].
      repeat apply conj; try reflexivity; try assumption.
Qed.

(** C4.  A run of [p] unescaped backticks that ends (on a character that is
    not an unescaped backtick) while no group is open is resolved as follows.
    After the word in progress, if any, is pushed, the resolver pushes exactly
    [p / 3 / 2] empty code tokens.  Then, if [p / 3] is odd, a code group of
    width 3 is open with the [p mod 3] leftover backticks as its content so
    far; otherwise, if [p mod 3] is not zero, a code group of that width is
    open; otherwise no group is open.  The character that ended the run is
    consumed in the resulting state.  Eight backticks followed by x leave one
    empty code token and an open code group of width 2. *)
Theorem backtick_run_resolution
    (char : string) (i p : Z) (s : ArgumentSplitter.t) :
  group s = GroupType.New \/ group s = GroupType.None ->
  present (backticks s) = p -> 0 < p ->
  (char =? backtick) && negb (escaped s) = false ->
  let resolved :=
    handleExtraBackticks i (setGroup GroupType.CodeBacktick (pushArg s)) in
  consumeChar char i s = Normal tt (consumeAfterBackticks char i resolved) /\
  args resolved =
    (args (pushArg s) ++ emptyCodeTokens (Z.to_nat (p / 3 / 2)) (i - p))%list /\
  List.length (emptyCodeTokens (Z.to_nat (p / 3 / 2)) (i - p)) = Z.to_nat (p / 3 / 2) /\
  Forall (fun a => content a = EmptyString /\ isCode a = true)
         (emptyCodeTokens (Z.to_nat (p / 3 / 2)) (i - p)) /\
  present (backticks resolved) = 0 /\
  (if Z.odd (p / 3) then
     group resolved = GroupType.CodeBacktick /\ past (backticks resolved) = 3 /\
     next resolved = repeatString backtick (Z.to_nat (p mod 3))
   else if negb (p mod 3 =? 0)%Z then
     group resolved = GroupType.CodeBacktick /\
     past (backticks resolved) = p mod 3 /\ next resolved = EmptyString
   else
     group resolved = GroupType.New /\ past (backticks resolved) = 0 /\
     next resolved = EmptyString) /\
  consumeLoop "````````x" 9 0 new =
    Normal tt (make false 6 GroupType.CodeBacktick "x" (mkBackticks 2 0)
                 [mkSplitArgument EmptyString GroupType.CodeBacktick 0]).
Proof.
  intros Hg Hp Hpos Hc. cbn zeta.
  destruct (pushArg_frame s) as (P1 & P2 & P3).
  assert (Hpr : present (backticks (setGroup GroupType.CodeBacktick (pushArg s))) = p).
  { unfold setGroup; cbn [backticks]. rewrite P3. exact Hp. }
  destruct (handleExtraBackticks_spec i (setGroup GroupType.CodeBacktick (pushArg s)))
    as (S1 & S2 & S3).
  { unfold setGroup; cbn [next]. apply pushArg_next. }
  { rewrite Hpr. lia. }
  rewrite Hpr in S1, S3.
  split.
  { unfold consumeChar. rewrite Hc, Hp.
    destruct Hg as [-> | ->]; cbn [GroupType.eqb orb];
      (destruct (Z.eqb_spec p 0) as [E | E]; [lia | reflexivity]). }
  split; [exact S1|].
  split; [apply emptyCodeTokens_length|].
  split; [apply emptyCodeTokens_Forall|].
  split; [exact S2|].
  split; [|vm_compute; reflexivity].
  destruct (Z.odd (p / 3)) eqn:Eo; [tauto|].
  destruct (negb (p mod 3 =? 0)%Z) eqn:El; [tauto|].
  destruct S3 as (T1 & T2 & T3 & T4 & T5).
  repeat apply conj; try assumption.
  apply T4.
  apply negb_false_iff, Z.eqb_eq in El.
  rewrite Zodd_mod in Eo. apply Z.eqb_neq in Eo.
  Z.to_euclidean_division_equations. lia.
Qed.

Lemma backtick_run_resolution_witness :
  consumeChar "x" 8 (make false 0 GroupType.New EmptyString (mkBackticks 0 8) []) =
  Normal tt (make false 6 GroupType.CodeBacktick "x" (mkBackticks 2 0)
               [mkSplitArgument EmptyString GroupType.CodeBacktick 0]).
Proof.
  destruct (backtick_run_resolution "x" 8 8
              (make false 0 GroupType.New EmptyString (mkBackticks 0 8) []))
    as (H & _).
  - left. reflexivity.
  - reflexivity.
  - lia.
  - reflexivity.
  - rewrite H. vm_compute. reflexivity.
Defined.

(** ** Where the first token starts *)

Ltac char_cases c :=
  destruct (String.eqb_spec c backslash) as [?Eb | ?Eb];
  [| destruct (String.eqb_spec c doubleQuote) as [?Eq | ?Eq];
     [| destruct (isWhitespace c) eqn:?Ew;
        [| destruct (String.eqb_spec c EmptyString) as [?Ee | ?Ee] ] ] ].

Lemma pushArg_firstStart (s : ArgumentSplitter.t) :
  Core s -> firstStart (pushArg s) = firstStart s.
Proof.
  destruct s as [esc st g nx bt ar]. intros [H1 H2 H3 H4 H5]. cbn in *.
  unfold pushArg, firstStart; cbn.
  destruct (String.eqb_spec nx EmptyString) as [E | E]; cbn.
  - destruct g; cbn; destruct ar; cbn; try reflexivity.
    now elim H5.
  - destruct g; cbn; destruct ar; cbn; try reflexivity.
    now elim E; apply H4.
Qed.

Lemma appendChar_firstStart (char : string) (k : Z) (s : ArgumentSplitter.t) :
  firstStart (appendChar char k s) =
  match firstStart s with
  | Some f => Some f
  | None => if char =? EmptyString then None else Some k
  end.
Proof.
  destruct s as [esc st g nx bt ar].
  unfold appendChar, firstStart; cbn.
  destruct ar; destruct g; cbn; destruct (char =? EmptyString); reflexivity.
Qed.

Lemma consumeNormalChar_firstStart_Some
    (char : string) (k f : Z) (s : ArgumentSplitter.t) :
  Core s -> firstStart s = Some f ->
  firstStart (consumeNormalChar char k s) = Some f.
Proof.
  intros Hc Hf. unfold consumeNormalChar.
  assert (Hp : firstStart (pushArg s) = Some f)
    by (now rewrite pushArg_firstStart).
  assert (Ha : forall c, firstStart (appendChar c k s) = Some f)
    by (intros c; now rewrite appendChar_firstStart, Hf).
  assert (Hq : firstStart (newGroup GroupType.DoubleQuote k (pushArg s)) = Some f).
  { revert Hp. unfold firstStart, newGroup, setStartOfCurrentGroup, setGroup.
    cbn [args group startOfCurrentGroup GroupType.eqb].
    rewrite pushArg_group. destruct (args (pushArg s)); [discriminate | auto]. }
  assert (He : firstStart (appendChar char k (setEscaped (negb (escaped s)) s)) = Some f).
  { rewrite appendChar_firstStart.
    change (firstStart (setEscaped (negb (escaped s)) s)) with (firstStart s).
    now rewrite Hf. }
  repeat match goal with
         | |- context [if ?b then _ else _] => destruct b
         end; auto.
Qed.

Lemma consumeNormalChar_firstStart_None
    (char : string) (k : Z) (s : ArgumentSplitter.t) :
  Core s -> firstStart s = None ->
  let s' := consumeNormalChar char k s in
  firstStart s' = Some k \/
  (firstStart s' = None /\
   ((isWhitespace char = true /\ escaped s' = escaped s) \/
    (char = backslash /\ escaped s = false /\ escaped s' = true) \/
    (char = EmptyString /\ escaped s' = escaped s))).
Proof.
  destruct s as [esc st g nx bt ar]. intros [H1 H2 H3 H4 H5] Hf. cbn in *.
  unfold firstStart in Hf; cbn in Hf.
  destruct ar as [|a ar]; [|discriminate].
  destruct g; try discriminate. clear Hf.
  rewrite (H4 eq_refl). cbn zeta.
  unfold consumeNormalChar.
  char_cases char.
  - subst char. destruct esc; cbn; [left; reflexivity|].
    right. split; [reflexivity|]. right. left. auto.
  - subst char. destruct esc; cbn; left; reflexivity.
  - cbn. right. split; [reflexivity|]. left. auto.
  - subst char. cbn. right. split; [reflexivity|]. right. right. auto.
  - left. unfold appendChar; cbn.
    destruct (String.eqb_spec char EmptyString); [contradiction|]. reflexivity.
Qed.

Lemma firstStart_New_head (s : ArgumentSplitter.t) (f : Z) :
  group s = GroupType.New -> firstStart s = Some f ->
  exists a l, args s = a :: l /\ originalIndex a = f.
Proof.
  unfold firstStart. intros ->. cbn. destruct (args s) as [|a l]; [discriminate|].
  intros [= <-]. eauto.
Qed.

Lemma firstStart_New_nil (s : ArgumentSplitter.t) :
  group s = GroupType.New -> firstStart s = None -> args s = [].
Proof.
  unfold firstStart. intros ->. destruct (args s); [reflexivity | discriminate].
Qed.

Lemma firstStart_None_inv (s : ArgumentSplitter.t) :
  firstStart s = None -> args s = [] /\ group s = GroupType.New.
Proof.
  unfold firstStart. destruct (args s); [|discriminate].
  destruct (group s); cbn; try discriminate. auto.
Qed.

Lemma handleExtraBackticks_firstStart (i : Z) (s : ArgumentSplitter.t) :
  next s = EmptyString -> 0 <= present (backticks s) ->
  let s' := handleExtraBackticks i s in
  match args s with
  | a :: _ => firstStart s' = Some (originalIndex a)
  | [] => 0 < present (backticks s) ->
          firstStart s' = Some (i - present (backticks s))
  end.
Proof.
  intros Hn Hp. cbn zeta.
  destruct (handleExtraBackticks_spec i s Hn Hp) as (S1 & S2 & S3).
  cbn zeta in *. set (p := present (backticks s)) in *.
  unfold firstStart. rewrite S1.
  destruct (args s) as [|a l]; [|reflexivity].
  intros Hpos. cbn [app].
  destruct (Z.to_nat (p / 3 / 2)) as [|n] eqn:En; [|reflexivity].
  cbn [emptyCodeTokens].
  assert (Hz : p / 3 / 2 = 0).
  { Z.to_euclidean_division_equations. lia. }
  destruct (Z.odd (p / 3)) eqn:Eo.
  - destruct S3 as (G & _ & _ & St). rewrite G, St, Hz. cbn. f_equal. lia.
  - destruct (negb (p mod 3 =? 0)%Z) eqn:El.
    + destruct S3 as (G & _ & _ & St). rewrite G, St, Hz. cbn. f_equal. lia.
    + exfalso. apply negb_false_iff, Z.eqb_eq in El.
      rewrite Zodd_mod in Eo. apply Z.eqb_neq in Eo.
      Z.to_euclidean_division_equations. lia.
Qed.

Lemma consumeAfterBackticks_firstStart
    (char : string) (k f : Z) (s : ArgumentSplitter.t) :
  Core s -> firstStart s = Some f ->
  firstStart (consumeAfterBackticks char k s) = Some f.
Proof.
  intros Hc Hf. unfold consumeAfterBackticks.
  destruct (GroupType.eqb (group s) GroupType.CodeBacktick).
  - now rewrite appendChar_firstStart, Hf.
  - now apply consumeNormalChar_firstStart_Some.
Qed.

(** The two call sites of [handleExtraBackticks], from the state [s1] in
    which the run is resolved to the state after the character that ended
    the run. *)
Lemma resolve_firstStart (char : string) (i : Z) (s1 : ArgumentSplitter.t) :
  Core s1 -> next s1 = EmptyString -> 0 <= present (backticks s1) ->
  startOfCurrentGroup s1 <= i - present (backticks s1) ->
  (group s1 = GroupType.CodeBacktick /\ present (backticks s1) <> 0) \/
  group s1 = GroupType.New ->
  let s' := consumeAfterBackticks char i (handleExtraBackticks i s1) in
  (forall a l, args s1 = a :: l -> firstStart s' = Some (originalIndex a)) /\
  (args s1 = [] -> 0 < present (backticks s1) ->
   firstStart s' = Some (i - present (backticks s1))).
Proof.
  intros Hc Hn Hp Hs Hg. cbn zeta.
  destruct (handleExtraBackticks_Inv i s1 Hc Hp Hs Hg) as (X1 & _).
  pose proof (handleExtraBackticks_firstStart i s1 Hn Hp) as F. cbn zeta in F.
  split.
  - intros a l E. rewrite E in F. apply consumeAfterBackticks_firstStart; auto.
  - intros E Hpos. rewrite E in F. apply consumeAfterBackticks_firstStart; auto.
Qed.

(** The state in which [consumeChar] resolves a run that ends outside any
    group. *)
Lemma resolve_outside (i : Z) (s : ArgumentSplitter.t) :
  Inv i s ->
  group s = GroupType.None \/ group s = GroupType.New ->
  present (backticks s) <> 0 ->
  let s1 := setGroup GroupType.CodeBacktick (pushArg s) in
  Core s1 /\ next s1 = EmptyString /\
  present (backticks s1) = present (backticks s) /\
  0 <= present (backticks s1) /\
  startOfCurrentGroup s1 <= i - present (backticks s1) /\
  ((group s1 = GroupType.CodeBacktick /\ present (backticks s1) <> 0) \/
   group s1 = GroupType.New) /\
  args s1 = args (pushArg s).
Proof.
  intros [Hc Hp Hs Hpa Hq Hw] Hg Hz. cbn zeta.
  destruct (pushArg_frame s) as (P1 & P2 & P3).
  unfold setGroup at 2 3 4 5 6 7 8 9.
  cbn [args next backticks startOfCurrentGroup group]. rewrite P2, P3.
  repeat apply conj; try assumption; try reflexivity.
  - apply Core_CodeBacktick, pushArg_Core, Hc.
  - apply pushArg_next.
  - left. auto.
Qed.

(** The state in which [consumeChar] resolves a run that closes a code
    group. *)
Lemma resolve_closing (i : Z) (s : ArgumentSplitter.t) :
  Inv i s -> group s = GroupType.CodeBacktick ->
  past (backticks s) <= present (backticks s) ->
  let s1 :=
    pushArg (setPresent (present (backticks s) - past (backticks s)) s) in
  Core s1 /\ next s1 = EmptyString /\
  0 <= present (backticks s1) /\
  startOfCurrentGroup s1 <= i - present (backticks s1) /\
  ((group s1 = GroupType.CodeBacktick /\ present (backticks s1) <> 0) \/
   group s1 = GroupType.New) /\
  firstStart s1 = firstStart s.
Proof.
  intros [Hc Hp Hs Hpa Hq Hw] Hg Hle. cbn zeta. specialize (Hpa Hg).
  set (s0 := setPresent (present (backticks s) - past (backticks s)) s).
  assert (Hc0 : Core s0) by (unfold s0, setPresent; apply Core_backticks, Hc).
  destruct (pushArg_frame s0) as (P1 & P2 & P3).
  rewrite P2, P3.
  repeat apply conj.
  - now apply pushArg_Core.
  - apply pushArg_next.
  - unfold s0, setPresent; cbn [backticks present]. lia.
  - unfold s0, setPresent; cbn [backticks present startOfCurrentGroup]. lia.
  - right. reflexivity.
  - now rewrite pushArg_firstStart.
Qed.

Lemma consumeChar_firstStart_Some
    (char : string) (i f : Z) (s s' : ArgumentSplitter.t) :
  Inv i s -> firstStart s = Some f ->
  consumeChar char i s = Normal tt s' -> firstStart s' = Some f.
Proof.
  intros HI Hf. pose proof HI as [Hc Hp Hs Hpa Hq Hw]. unfold consumeChar.
  destruct (GroupType.eqb (group s) GroupType.DoubleQuote).
  { intros [= <-]. now apply consumeNormalChar_firstStart_Some. }
  destruct ((char =? backtick) && negb (escaped s)).
  { intros [= <-]. exact Hf. }
  destruct (Z.eqb_spec (present (backticks s)) 0) as [Ez | Ez]; cbn [negb].
  { intros [= <-]. now apply consumeNormalChar_firstStart_Some. }
  destruct (GroupType.eqb (group s) GroupType.None
            || GroupType.eqb (group s) GroupType.New) eqn:Enn.
  { intros [= <-].
    destruct (resolve_outside i s HI) as (R1 & R2 & R3 & R4 & R5 & R6 & R7);
      [destruct (group s); cbn in Enn; auto; discriminate | assumption |].
    destruct (firstStart_New_head (pushArg s) f (pushArg_group s))
      as (a & l & Ea & Eo); [now rewrite pushArg_firstStart|].
    destruct (resolve_firstStart char i _ R1 R2 R4 R5 R6) as [F _].
    rewrite <- Eo. apply (F a l). now rewrite R7. }
  destruct (GroupType_eqb_spec (group s) GroupType.CodeBacktick) as [Ec | Ec];
    [|discriminate].
  destruct (Z.eqb_spec (past (backticks s)) 0) as [Ep | Ep]; [discriminate|].
  destruct (Z.ltb_spec (present (backticks s)) (past (backticks s))) as [El | El].
  { intros [= <-]. now rewrite appendChar_firstStart, Hf. }
  intros [= <-].
  destruct (resolve_closing i s HI Ec El) as (R1 & R2 & R4 & R5 & R6 & R7).
  destruct (firstStart_New_head _ f (pushArg_group _) (eq_trans R7 Hf))
    as (a & l & Ea & Eo).
  destruct (resolve_firstStart char i _ R1 R2 R4 R5 R6) as [F _].
  rewrite <- Eo. apply (F a l). exact Ea.
Qed.

Lemma charAt_cases (s : string) (i : Z) :
  charAt s i = EmptyString \/ exists a, charAt s i = chr a.
Proof.
  unfold charAt. destruct (i <? 0)%Z; [auto|].
  destruct (String.get (Z.to_nat i) s); eauto.
Qed.

Lemma substring_0_succ (content : string) (i : Z) :
  0 <= i ->
  substring 0 (Z.to_nat (i + 1)) content =
  substring 0 (Z.to_nat i) content ++ charAt content i.
Proof.
  intros Hi. replace (Z.to_nat (i + 1)) with (S (Z.to_nat i)) by lia.
  rewrite substring_0_snoc, Z2Nat.id by lia. reflexivity.
Qed.

(** One step of the scan keeps [Lead]. *)
Lemma consumeChar_Lead (content : string) (i : Z) (s s' : ArgumentSplitter.t) :
  0 <= i -> Inv i s -> Lead content i s ->
  consumeChar (charAt content i) i s = Normal tt s' ->
  Lead content (i + 1) s'.
Proof.
  intros Hi HI HL HC. unfold Lead in *.
  destruct (firstStart s) as [f|] eqn:Hf.
  { now rewrite (consumeChar_firstStart_Some _ _ _ _ _ HI Hf HC). }
  destruct (firstStart_None_inv s Hf) as [Ha Hg].
  pose proof HI as [Hc Hp Hs Hpa Hq Hw].
  revert HC. unfold consumeChar. rewrite Hg. cbn [GroupType.eqb orb].
  destruct ((charAt content i =? backtick) && negb (escaped s)).
  { intros [= <-].
    change (firstStart (setPresent (present (backticks s) + 1) s))
      with (firstStart s).
    rewrite Hf. cbn [setPresent escaped backticks present].
    now replace (i + 1 - (present (backticks s) + 1))
      with (i - present (backticks s)) by lia. }
  destruct (Z.eqb_spec (present (backticks s)) 0) as [Ez | Ez]; cbn [negb].
  - intros [= <-]. rewrite Ez, Z.sub_0_r in HL.
    destruct (consumeNormalChar_frame (charAt content i) i s) as (F1 & _).
    destruct (consumeNormalChar_firstStart_None (charAt content i) i s Hc Hf)
      as [E | (E & [(W & Ee) | [(B & Ee & Ee') | (B & Ee)]])]; rewrite E.
    + eapply leadingOk_weaken; eassumption.
    + rewrite F1, Ez, Z.sub_0_r, Ee, substring_0_succ by assumption.
      destruct (charAt_cases content i) as [C | [a C]]; rewrite C in *;
        [discriminate W|].
      now apply leadingOk_snoc_whitespace.
    + rewrite F1, Ez, Z.sub_0_r, Ee', substring_0_succ, B by assumption.
      apply leadingOk_snoc_backslash. now rewrite <- Ee.
    + rewrite F1, Ez, Z.sub_0_r, Ee, substring_0_succ, B, append_empty_r
        by assumption.
      exact HL.
  - intros [= <-].
    destruct (resolve_outside i s HI (or_intror Hg) Ez)
      as (R1 & R2 & R3 & R4 & R5 & R6 & R7).
    destruct (resolve_firstStart (charAt content i) i _ R1 R2 R4 R5 R6) as [_ F].
    rewrite F.
    + rewrite R3. eapply leadingOk_weaken; eassumption.
    + rewrite R7. apply firstStart_New_nil; [apply pushArg_group|].
      now rewrite pushArg_firstStart.
    + lia.
Qed.

Lemma Lead_new (content : string) : Lead content 0 new.
Proof. unfold Lead. cbn. now destruct content. Qed.

Lemma consumeLoop_Lead (content : string) (n : nat) :
  forall (i : Z) (s s' : ArgumentSplitter.t),
    0 <= i -> Inv i s -> Lead content i s ->
    consumeLoop content n i s = Normal tt s' ->
    Lead content (i + Z.of_nat n) s'.
Proof.
  induction n as [|n IH]; intros i s s' Hi HI HL.
  - cbn. intros [= <-]. now rewrite Z.add_0_r.
  - cbn [consumeLoop].
    destruct (consumeChar_Inv (charAt content i) i s HI) as (s1 & E1 & I1 & _).
    rewrite E1. intros H.
    replace (i + Z.of_nat (S n)) with (i + 1 + Z.of_nat n) by lia.
    apply (IH (i + 1) s1); try assumption; [lia|].
    eapply consumeChar_Lead; eassumption.
Qed.

(** What precedes the first token of a successful split. *)
Lemma split_new_lead (content : string) (r : SplitArgumentArray.t)
    (s : ArgumentSplitter.t) (a : SplitArgument) (l : list SplitArgument) :
  split content new = Normal r s -> args s = a :: l ->
  leadingOk true (substring 0 (Z.to_nat (originalIndex a)) content) = true.
Proof.
  intros H Ea. apply split_new_inversion in H. destruct H as (H & _).
  unfold scan in H.
  destruct (consumeLoop_Inv content (String.length content) 0 new Inv_new)
    as (s1 & E1 & I1).
  rewrite E1 in H. cbn [Z.add] in I1.
  pose proof (consumeLoop_Lead content _ 0 new s1 (Z.le_refl 0) Inv_new
                (Lead_new content) E1) as L1.
  cbn [Z.add] in L1.
  assert (Hlen : 0 <= Z.of_nat (String.length content)) by lia.
  assert (Hc : charAt content (Z.of_nat (String.length content)) = EmptyString).
  { rewrite charAt_of_nat.
    destruct (String.get (String.length content) content) eqn:G; [|reflexivity].
    exfalso. revert G. clear. induction content; cbn; [discriminate | auto]. }
  rewrite <- Hc in H.
  pose proof (consumeChar_Lead content _ s1 s Hlen I1 L1 H) as L.
  unfold Lead, firstStart in L. rewrite Ea in L. exact L.
Qed.

(** ** [restore] *)

Lemma jsSubstring_between (s : string) (a b : Z) :
  0 <= a <= b -> b <= Z.of_nat (String.length s) ->
  jsSubstring s (Some a) (Some b) =
  substring (Z.to_nat a) (Z.to_nat (b - a)) s.
Proof. intros H1 H2. unfold jsSubstring. f_equal; lia. Qed.

Lemma jsSubstring_to_end (s : string) (a : Z) :
  0 <= a <= Z.of_nat (String.length s) ->
  jsSubstring s (Some a) None =
  substring (Z.to_nat a) (String.length s - Z.to_nat a) s.
Proof. intros H. unfold jsSubstring. f_equal; lia. Qed.

Lemma jsSubstring_from_start (s : string) (e : option Z) :
  jsSubstring s None e =
  match e with
  | Some b => substring 0 (Z.to_nat b) s
  | None => s
  end.
Proof.
  unfold jsSubstring.
  assert (H : forall n : nat, (String.length s <= n)%nat -> substring 0 n s = s)
    by apply substring_0_all.
  destruct e as [b|].
  - destruct (Z.le_gt_cases b (Z.of_nat (String.length s))) as [Hb | Hb].
    + f_equal; lia.
    + rewrite (H (Z.to_nat b)) by lia.
      replace (Z.to_nat (Z.min (Z.min (Z.max 0 0) (Z.of_nat (String.length s)))
                           (Z.min (Z.max b 0) (Z.of_nat (String.length s)))))
        with 0%nat by lia.
      apply H. lia.
  - replace (Z.to_nat (Z.min (Z.min (Z.max 0 0) (Z.of_nat (String.length s)))
                         (Z.min (Z.max (Z.of_nat (String.length s)) 0)
                                (Z.of_nat (String.length s)))))
      with 0%nat by lia.
    apply H. lia.
Qed.

Lemma at_Some (r : SplitArgumentArray.t) (i : Z) (a : SplitArgument) :
  SplitArgumentArray.at_ r i = Some a ->
  0 <= i < SplitArgumentArray.length r /\
  nth_error (SplitArgumentArray.args r) (Z.to_nat i) = Some a.
Proof.
  unfold SplitArgumentArray.at_.
  destruct (Z.leb_spec 0 i); [|discriminate].
  destruct (Z.ltb_spec i (SplitArgumentArray.length r)); [|discriminate].
  cbn. auto.
Qed.

Lemma at_None (r : SplitArgumentArray.t) (i : Z) :
  SplitArgumentArray.length r <= i -> SplitArgumentArray.at_ r i = None.
Proof.
  intros H. unfold SplitArgumentArray.at_.
  destruct (Z.ltb_spec i (SplitArgumentArray.length r)); [lia|].
  now rewrite andb_false_r.
Qed.

(** C1, as the code has it.  On every input on which [split] succeeds:
    for tokens [i < j], [restore i j] is the substring of the input from the
    start offset of token [i] up to the start offset of token [j], and these
    offsets are in order and within the input; with no end, or an end at or
    beyond the number of tokens, [restore i] is the substring from the start
    offset of token [i] to the end of the input; and [restore 0] is the input
    without a leading part in which every character is ungrouped whitespace
    except for at most one backslash. *)
Theorem restore_spans_token_offsets
    (input : string) (r : SplitArgumentArray.t) (s : ArgumentSplitter.t) :
  split input new = Normal r s ->
  (forall (i j : Z) (a b : SplitArgument),
      SplitArgumentArray.at_ r i = Some a ->
      SplitArgumentArray.at_ r j = Some b -> i < j ->
      0 <= originalIndex a <= originalIndex b /\
      originalIndex b <= Z.of_nat (String.length input) /\
      SplitArgumentArray.restore r i (Some j) =
      substring (Z.to_nat (originalIndex a))
                (Z.to_nat (originalIndex b - originalIndex a)) input) /\
  (forall (i : Z) (a : SplitArgument) (e : option Z),
      SplitArgumentArray.at_ r i = Some a ->
      e = None \/ (exists j, e = Some j /\ SplitArgumentArray.length r <= j) ->
      SplitArgumentArray.restore r i e =
      substring (Z.to_nat (originalIndex a))
                (String.length input - Z.to_nat (originalIndex a)) input) /\
  (forall a : SplitArgument,
      SplitArgumentArray.at_ r 0 = Some a ->
      exists lead,
        input = lead ++ SplitArgumentArray.restore r 0 None /\
        lead = substring 0 (Z.to_nat (originalIndex a)) input /\
        leadingOk true lead = true).
Proof.
  intros H. pose proof (split_new_inversion _ _ _ H) as (_ & Er & _ & Hc & Hs).
  destruct Hc as [H1 H2 H3 H4 H5]. rewrite Forall_forall in H3.
  assert (Hb : forall i a, SplitArgumentArray.at_ r i = Some a ->
                           0 <= originalIndex a <= Z.of_nat (String.length input)).
  { intros i a Ha. apply at_Some in Ha. destruct Ha as [_ Ha].
    apply nth_error_In in Ha. rewrite Er in Ha. destruct (H3 _ Ha). lia. }
  assert (Hend : forall i a e,
             SplitArgumentArray.at_ r i = Some a ->
             e = None \/ (exists j, e = Some j /\ SplitArgumentArray.length r <= j) ->
             SplitArgumentArray.restore r i e =
             substring (Z.to_nat (originalIndex a))
                       (String.length input - Z.to_nat (originalIndex a)) input).
  { intros i a e Ha He. unfold SplitArgumentArray.restore. rewrite Ha.
    assert (Ee : match e with
                 | Some e0 => option_map originalIndex (SplitArgumentArray.at_ r e0)
                 | None => None
                 end = None).
    { destruct He as [-> | (j & -> & Hj)]; [reflexivity|]. now rewrite at_None. }
    rewrite Ee, Er. cbn [option_map SplitArgumentArray.original].
    apply jsSubstring_to_end. eauto. }
  repeat apply conj.
  - intros i j a b Ha Hb' Hij.
    pose proof (Hb _ _ Ha) as Ba. pose proof (Hb _ _ Hb') as Bb.
    assert (Hle : originalIndex a <= originalIndex b).
    { apply at_Some in Ha. apply at_Some in Hb'.
      destruct Ha as [Ra Ha], Hb' as [Rb Hb']. rewrite Er in Ha, Hb'.
      apply (H2 (Z.to_nat i) (Z.to_nat j)); [lia | assumption | assumption]. }
    repeat apply conj; try lia.
    unfold SplitArgumentArray.restore. rewrite Ha, Hb', Er.
    cbn [option_map SplitArgumentArray.original].
    apply jsSubstring_between; lia.
  - exact Hend.
  - intros a Ha.
    exists (substring 0 (Z.to_nat (originalIndex a)) input).
    repeat apply conj; [|reflexivity|].
    + rewrite (Hend 0 a None Ha) by auto. apply substring_split.
    + apply at_Some in Ha. destruct Ha as [_ Ha]. rewrite Er in Ha. cbn in Ha.
      destruct (args s) as [|x l] eqn:Ea; [discriminate|]. injection Ha as ->.
      eapply split_new_lead; eassumption.
Qed.

Lemma restore_spans_token_offsets_witness :
  exists r,
    split " say `hi` x" new = Normal r (instanceOf (split " say `hi` x" new)) /\
    SplitArgumentArray.restore r 0 (Some 1) = "say " /\
    SplitArgumentArray.restore r 1 None = "`hi` x" /\
    exists lead,
      " say `hi` x" = lead ++ SplitArgumentArray.restore r 0 None /\
      lead = " ".
Proof.
  eexists. split; [vm_compute; reflexivity|].
  split; [reflexivity|]. split; [reflexivity|].
  match goal with
  | |- context [SplitArgumentArray.restore ?r 0 None] =>
      destruct (restore_spans_token_offsets " say `hi` x" r
                  (instanceOf (split " say `hi` x" new)))
        as (_ & _ & L); [vm_compute; reflexivity|];
      destruct (L (mkSplitArgument "say" GroupType.None 1) eq_refl)
        as (lead & E1 & E2 & _)
  end.
  exists lead. split; [exact E1 | exact E2].
Defined.

(** C1, as the specification states it, fails: for the two characters
    backslash and a, [restore 0] is the one character a, which is not the
    input with only leading whitespace removed. *)
Lemma restore_loses_leading_escape :
  exists r s,
    split "\a" new = Normal r s /\
    SplitArgumentArray.restore r 0 None = "a" /\
    ~ (exists ws, leadingOk false ws = true /\
                  "\a" = ws ++ SplitArgumentArray.restore r 0 None).
Proof.
  eexists. eexists. split; [vm_compute; reflexivity|].
  split; [reflexivity|].
  intros (ws & Hw & E).
  change (SplitArgumentArray.restore _ 0 None) with "a" in E.
  destruct ws as [|c ws]; [discriminate E|].
  cbn [append] in E. injection E as <- E.
  vm_compute in Hw. discriminate Hw.
Qed.

(** C9, as the code has it.  With a start index at or beyond the number of
    tokens, [restore] takes the start of the substring to be undefined, hence
    0: it returns the leading part of the original string that ends before
    the start offset of token [end], or the whole original string when [end]
    is omitted or indexes no token. *)
Theorem restore_start_out_of_range
    (r : SplitArgumentArray.t) (start : Z) (e : option Z) :
  SplitArgumentArray.length r <= start ->
  SplitArgumentArray.restore r start e =
  match e with
  | Some k =>
      match SplitArgumentArray.at_ r k with
      | Some b =>
          substring 0 (Z.to_nat (originalIndex b)) (SplitArgumentArray.original r)
      | None => SplitArgumentArray.original r
      end
  | None => SplitArgumentArray.original r
  end.
Proof.
  intros H. unfold SplitArgumentArray.restore.
  rewrite (at_None r start H). cbn [option_map].
  rewrite jsSubstring_from_start.
  destruct e as [k|]; [|reflexivity].
  destruct (SplitArgumentArray.at_ r k); reflexivity.
Qed.

Lemma restore_start_out_of_range_witness :
  SplitArgumentArray.restore
    (SplitArgumentArray.make "a b"
       [mkSplitArgument "a" GroupType.None 0; mkSplitArgument "b" GroupType.None 2])
    5 (Some 1) = "a ".
Proof.
  apply (restore_start_out_of_range
           (SplitArgumentArray.make "a b"
              [mkSplitArgument "a" GroupType.None 0;
               mkSplitArgument "b" GroupType.None 2])
           5 (Some 1)).
  vm_compute. discriminate.
Defined.

(** C9, as the specification states it, fails: on the two tokens of a b, a
    start index of 5 with end index 1 returns the first two characters, which
    is neither the empty string nor the original string, nor any other
    trailing part of it. *)
Lemma restore_start_out_of_range_prefix :
  exists r s,
    split "a b" new = Normal r s /\
    SplitArgumentArray.length r <= 5 /\
    SplitArgumentArray.restore r 5 (Some 1) = "a " /\
    SplitArgumentArray.restore r 5 (Some 1) <> EmptyString /\
    SplitArgumentArray.restore r 5 (Some 1) <> SplitArgumentArray.original r /\
    forall k : nat,
      SplitArgumentArray.restore r 5 (Some 1) <>
      substring k (String.length (SplitArgumentArray.original r) - k)
                (SplitArgumentArray.original r).
Proof.
  eexists. eexists. split; [vm_compute; reflexivity|].
  split; [vm_compute; discriminate|].
  split; [reflexivity|].
  split; [discriminate|].
  split; [discriminate|].
  intros k. change (SplitArgumentArray.restore _ 5 (Some 1)) with "a ".
  destruct k as [|[|[|[|k]]]]; cbn; discriminate.
Qed.

(** ** A second call on the same instance *)

Lemma extends_refl (l : list SplitArgument) : extends l l.
Proof. exists []. now rewrite app_nil_r. Qed.

Lemma extends_trans (l1 l2 l3 : list SplitArgument) :
  extends l1 l2 -> extends l2 l3 -> extends l1 l3.
Proof.
  intros [e1 ->] [e2 ->]. exists (e1 ++ e2)%list. now rewrite app_assoc.
Qed.

Lemma pushArg_extends (s : ArgumentSplitter.t) : extends (args s) (args (pushArg s)).
Proof.
  unfold pushArg. destruct (_ || _); cbn; [|apply extends_refl].
  eexists. reflexivity.
Qed.

Lemma consumeNormalChar_extends (char : string) (k : Z) (s : ArgumentSplitter.t) :
  extends (args s) (args (consumeNormalChar char k s)).
Proof.
  unfold consumeNormalChar.
  pose proof (pushArg_extends s) as Hp.
  assert (Ha : forall c x, args (appendChar c k x) = args x)
    by (intros c x; apply appendChar_frame).
  repeat match goal with
         | |- context [if ?b then _ else _] => destruct b
         end;
    rewrite ?Ha; cbn [newGroup setStartOfCurrentGroup setGroup setEscaped args];
    try assumption; apply extends_refl.
Qed.

Lemma completeGroupsLoop_extends (n : nat) :
  forall (lookbackIndex : Z) (s : ArgumentSplitter.t),
    extends (args s) (args (snd (completeGroupsLoop n lookbackIndex s))).
Proof.
  induction n as [|n IH]; intros lb s; cbn [completeGroupsLoop].
  - apply extends_refl.
  - eapply extends_trans; [|apply IH].
    apply (pushArg_extends (newGroup GroupType.CodeBacktick lb s)).
Qed.

Lemma handleExtraBackticks_extends (i : Z) (s : ArgumentSplitter.t) :
  extends (args s) (args (handleExtraBackticks i s)).
Proof.
  unfold handleExtraBackticks.
  match goal with
  | |- context [completeGroupsLoop ?n ?l s] =>
      pose proof (completeGroupsLoop_extends n l s) as H;
      destruct (completeGroupsLoop n l s) as [lb s1]
  end.
  cbn [snd] in H.
  destruct (_ =? 1)%Z.
  - rewrite (proj1 (proj2 (appendChar_frame _ _ _))). exact H.
  - destruct (negb _); exact H.
Qed.

Lemma consumeAfterBackticks_extends (char : string) (i : Z) (s : ArgumentSplitter.t) :
  extends (args s) (args (consumeAfterBackticks char i s)).
Proof.
  unfold consumeAfterBackticks. destruct (GroupType.eqb _ _).
  - rewrite (proj1 (proj2 (appendChar_frame _ _ _))). apply extends_refl.
  - apply consumeNormalChar_extends.
Qed.

Lemma consumeChar_extends (char : string) (i : Z) (s : ArgumentSplitter.t) :
  extends (args s) (args (instanceOf (consumeChar char i s))).
Proof.
  unfold consumeChar.
  repeat match goal with
         | |- context [if ?b then _ else _] => destruct b
         end;
    cbn [instanceOf]; try apply extends_refl;
    try apply consumeNormalChar_extends.
  - eapply extends_trans; [|apply consumeAfterBackticks_extends].
    eapply extends_trans; [|apply handleExtraBackticks_extends].
    apply pushArg_extends.
  - rewrite (proj1 (proj2 (appendChar_frame _ _ _))). apply extends_refl.
  - eapply extends_trans; [|apply consumeAfterBackticks_extends].
    eapply extends_trans; [|apply handleExtraBackticks_extends].
    apply (pushArg_extends (setPresent _ s)).
Qed.

Lemma consumeLoop_extends (content : string) (n : nat) :
  forall (i : Z) (s : ArgumentSplitter.t),
    extends (args s) (args (instanceOf (consumeLoop content n i s))).
Proof.
  induction n as [|n IH]; intros i s; cbn [consumeLoop].
  - apply extends_refl.
  - pose proof (consumeChar_extends (charAt content i) i s) as H.
    destruct (consumeChar (charAt content i) i s) as [u s1 | e s1]; cbn in H.
    + eapply extends_trans; [exact H | apply IH].
    + exact H.
Qed.

(** Whatever a call of [split] does, it only appends to the token list of
    the instance. *)
Lemma split_extends (content : string) (s : ArgumentSplitter.t) :
  extends (args s) (args (instanceOf (split content s))).
Proof.
  unfold split, scan.
  pose proof (consumeLoop_extends content (String.length content) 0 s) as H.
  destruct (consumeLoop content (String.length content) 0 s) as [u s1 | e s1];
    cbn in H.
  - pose proof (consumeChar_extends EmptyString (Z.of_nat (String.length content)) s1)
      as H'.
    destruct (consumeChar EmptyString (Z.of_nat (String.length content)) s1)
      as [u' s2 | e s2]; cbn in H'.
    + destruct (negb _); cbn; eapply extends_trans; eassumption.
    + cbn. eapply extends_trans; eassumption.
  - exact H.
Qed.

(** C10.  On an instance a caller can hold, a call of [split] leaves its
    tokens and its scan state in the instance, and the sequence it returns is the token list of the instance:
    when two calls on one instance both return, the second sequence begins
    with all the tokens of the first.  Splitting a and then b on one instance
    returns the tokens a and b, where a fresh instance returns b alone; a
    backslash left pending by a first call escapes the first character of
    the second, so that a double quote followed by c is returned as a plain
    token where a fresh instance throws. *)
Theorem split_twice_keeps_tokens
    (input1 input2 : string) (s0 s1 s2 : ArgumentSplitter.t)
    (r1 r2 : SplitArgumentArray.t) :
  reachable s0 ->
  split input1 s0 = Normal r1 s1 ->
  split input2 s1 = Normal r2 s2 ->
  SplitArgumentArray.args r1 = args s1 /\
  SplitArgumentArray.args r2 = args s2 /\
  extends (SplitArgumentArray.args r1) (SplitArgumentArray.args r2) /\
  (SplitArgumentArray.args
     (match split "b" (instanceOf (split "a" new)) with
      | Normal r _ => r
      | Throw _ _ => SplitArgumentArray.make EmptyString []
      end) =
   [mkSplitArgument "a" GroupType.None 0; mkSplitArgument "b" GroupType.None 0]) /\
  (exists s, split "b" new =
             Normal (SplitArgumentArray.make "b" [mkSplitArgument "b" GroupType.None 0]) s) /\
  (exists r s, split "\" new = Normal r s /\ escaped s = true /\
               SplitArgumentArray.args r = []) /\
  (exists s, split (doubleQuote ++ "c") (instanceOf (split "\" new)) =
             Normal (SplitArgumentArray.make (doubleQuote ++ "c")
                       [mkSplitArgument (doubleQuote ++ "c") GroupType.None 0]) s) /\
  (exists s, split (doubleQuote ++ "c") new =
             Throw (UnfinishedGroup GroupType.DoubleQuote) s).
Proof.
  intros _ H1 H2.
  assert (A : forall c s r s', split c s = Normal r s' ->
                               SplitArgumentArray.args r = args s').
  { intros c s r s'. unfold split.
    destruct (scan c s) as [u x | e x]; [|discriminate].
    destruct (negb _); [discriminate|]. now intros [= <- <-]. }
  pose proof (split_extends input2 s1) as E. rewrite H2 in E. cbn in E.
  rewrite (A _ _ _ _ H1), (A _ _ _ _ H2).
  repeat apply conj; try reflexivity; try exact E.
  - eexists. vm_compute. reflexivity.
  - eexists. eexists. repeat apply conj; vm_compute; reflexivity.
  - eexists. vm_compute. reflexivity.
  - eexists. vm_compute. reflexivity.
Qed.

Lemma split_twice_keeps_tokens_witness :
  extends [mkSplitArgument "a" GroupType.None 0]
          [mkSplitArgument "a" GroupType.None 0; mkSplitArgument "b" GroupType.None 0].
Proof.
  apply (split_twice_keeps_tokens "a" "b" new
           (instanceOf (split "a" new))
           (instanceOf (split "b" (instanceOf (split "a" new))))
           (SplitArgumentArray.make "a" [mkSplitArgument "a" GroupType.None 0])
           (SplitArgumentArray.make "b"
              [mkSplitArgument "a" GroupType.None 0;
               mkSplitArgument "b" GroupType.None 0])).
  - exact reachable_new.
  - vm_compute. reflexivity.
  - vm_compute. reflexivity.
Defined.

(** ** The internal errors, on any instance a caller can hold *)

Lemma handleExtraBackticks_Counters (i : Z) (s : ArgumentSplitter.t) :
  next s = EmptyString -> 0 <= present (backticks s) ->
  (group s = GroupType.CodeBacktick /\ present (backticks s) <> 0) \/
  group s = GroupType.New ->
  let s' := handleExtraBackticks i s in
  Counters s' /\
  (group s' = GroupType.CodeBacktick \/ group s' = GroupType.New).
Proof.
  intros Hn Hp Hg. cbn zeta.
  destruct (handleExtraBackticks_spec i s Hn Hp) as (_ & S2 & S3).
  cbn zeta in S3. set (p := present (backticks s)) in *.
  unfold Counters. rewrite S2.
  destruct (Z.odd (p / 3)) eqn:Eo.
  { destruct S3 as (G & Pa & _). rewrite G, Pa. repeat split; auto; lia. }
  destruct (negb (p mod 3 =? 0)%Z) eqn:El.
  { destruct S3 as (G & Pa & _). rewrite G, Pa.
    apply negb_true_iff, Z.eqb_neq in El.
    repeat split; auto; try lia.
    intros _. Z.to_euclidean_division_equations. lia. }
  destruct S3 as (Pa & _ & _ & G6 & G0).
  apply negb_false_iff, Z.eqb_eq in El.
  rewrite Zodd_mod in Eo. apply Z.eqb_neq in Eo.
  assert (Hcase : p = 0 \/ 6 <= p).
  { Z.to_euclidean_division_equations. lia. }
  assert (G : group (handleExtraBackticks i s) = GroupType.New).
  { destruct Hcase as [H0 | H6]; [|auto].
    destruct (G0 H0) as [G _]. rewrite G.
    destruct Hg as [[_ Hg] | Hg]; [contradiction | exact Hg]. }
  rewrite G. repeat split; auto; try lia. discriminate.
Qed.

Lemma consumeAfterBackticks_Counters (char : string) (i : Z) (s : ArgumentSplitter.t) :
  Counters s -> Counters (consumeAfterBackticks char i s).
Proof.
  intros [Hp Hpa]. unfold consumeAfterBackticks, Counters.
  destruct (GroupType.eqb (group s) GroupType.CodeBacktick).
  - destruct (appendChar_frame char i s) as (F1 & _ & F3 & _).
    rewrite F1. auto.
  - destruct (consumeNormalChar_frame char i s) as (F1 & F2 & _).
    rewrite F1. auto.
Qed.

(** No call of [consumeChar] throws, and the counters stay as they should. *)
Lemma consumeChar_Counters (char : string) (i : Z) (s : ArgumentSplitter.t) :
  Counters s ->
  exists s', consumeChar char i s = Normal tt s' /\ Counters s'.
Proof.
  intros HC. pose proof HC as [Hp Hpa]. unfold consumeChar.
  destruct (GroupType_eqb_spec (group s) GroupType.DoubleQuote) as [Eq | Eq].
  { eexists; split; [reflexivity|].
    destruct (consumeNormalChar_frame char i s) as (F1 & F2 & _).
    unfold Counters. rewrite F1. auto. }
  destruct ((char =? backtick) && negb (escaped s)).
  { eexists; split; [reflexivity|]. split; cbn; [lia | exact Hpa]. }
  destruct (Z.eqb_spec (present (backticks s)) 0) as [Ez | Ez]; cbn [negb].
  { eexists; split; [reflexivity|].
    destruct (consumeNormalChar_frame char i s) as (F1 & F2 & _).
    unfold Counters. rewrite F1. auto. }
  destruct (GroupType.eqb (group s) GroupType.None
            || GroupType.eqb (group s) GroupType.New) eqn:Enn.
  { eexists; split; [reflexivity|].
    apply consumeAfterBackticks_Counters.
    destruct (pushArg_frame s) as (P1 & P2 & P3).
    apply handleExtraBackticks_Counters.
    - apply pushArg_next.
    - unfold setGroup; cbn [backticks]. now rewrite P3.
    - left. unfold setGroup; cbn [backticks group]. rewrite P3. auto. }
  destruct (GroupType_eqb_spec (group s) GroupType.CodeBacktick) as [Ec | Ec].
  2:{ destruct (group s); cbn in Enn; congruence. }
  specialize (Hpa Ec).
  destruct (Z.eqb_spec (past (backticks s)) 0) as [Ep | Ep]; [lia|].
  destruct (Z.ltb_spec (present (backticks s)) (past (backticks s))) as [El | El].
  { eexists; split; [reflexivity|].
    match goal with
    | |- Counters (appendChar ?c i s) =>
        destruct (appendChar_frame c i s) as (F1 & _ & F3 & _)
    end.
    unfold Counters. rewrite F1. split; [assumption | auto]. }
  eexists; split; [reflexivity|].
  apply consumeAfterBackticks_Counters.
  set (s1 := setPresent (present (backticks s) - past (backticks s)) s).
  destruct (pushArg_frame s1) as (P1 & P2 & P3).
  apply handleExtraBackticks_Counters.
  - apply pushArg_next.
  - rewrite P3. unfold s1, setPresent; cbn [backticks present]. lia.
  - right. reflexivity.
Qed.

Lemma consumeLoop_Counters (content : string) (n : nat) :
  forall (i : Z) (s : ArgumentSplitter.t),
    Counters s ->
    exists s', consumeLoop content n i s = Normal tt s' /\ Counters s'.
Proof.
  induction n as [|n IH]; intros i s HC; cbn [consumeLoop].
  - eauto.
  - destruct (consumeChar_Counters (charAt content i) i s HC) as (s1 & E1 & C1).
    rewrite E1. apply IH, C1.
Qed.

Lemma scan_Counters (content : string) (s : ArgumentSplitter.t) :
  Counters s ->
  exists s', scan content s = Normal tt s' /\ Counters s'.
Proof.
  intros HC. unfold scan.
  destruct (consumeLoop_Counters content (String.length content) 0 s HC)
    as (s1 & E1 & C1).
  rewrite E1. apply consumeChar_Counters, C1.
Qed.

(** The counter of pending backticks is never negative, and an open code
    group has a width to match, on every instance a caller can hold. *)
Lemma reachable_Counters (s : ArgumentSplitter.t) : reachable s -> Counters s.
Proof.
  induction 1 as [|content s Hr IH].
  - split; cbn; [lia | discriminate].
  - unfold split.
    destruct (scan_Counters content s IH) as (s1 & E1 & C1). rewrite E1.
    destruct (negb _); exact C1.
Qed.

(** C6.  On every input, and on every instance a caller can hold (a fresh
    one in particular), the scan runs through all its [consumeChar] calls
    without throwing, so neither internal-error throw site is reached, and
    [split] either returns or throws the unfinished-group error. *)
Theorem split_never_internal_error (content : string) (s : ArgumentSplitter.t) :
  reachable s ->
  exists s',
    scan content s = Normal tt s' /\
    ((exists r, split content s = Normal r s') \/
     (exists g, split content s = Throw (UnfinishedGroup g) s' /\
                isInternalError (UnfinishedGroup g) = false)).
Proof.
  intros Hr.
  destruct (scan_Counters content s (reachable_Counters s Hr)) as (s' & E & _).
  exists s'. split; [exact E|]. unfold split. rewrite E.
  destruct (negb (GroupType.eqb (group s') GroupType.New)).
  - right. exists (group s'). split; reflexivity.
  - left. eexists. reflexivity.
Qed.

Lemma split_never_internal_error_witness :
  exists s',
    scan "``a`b``" new = Normal tt s' /\
    ((exists r, split "``a`b``" new = Normal r s') \/
     (exists g, split "``a`b``" new = Throw (UnfinishedGroup g) s' /\
                isInternalError (UnfinishedGroup g) = false)).
Proof. exact (split_never_internal_error "``a`b``" new reachable_new). Defined.

(** * Further properties of the code *)

(** ** The loop of [split] as a fold over the characters *)

Lemma append_assoc (a b c : string) : (a ++ b) ++ c = a ++ (b ++ c).
Proof. induction a as [|x a IH]; cbn; [reflexivity | now rewrite IH]. Qed.

Lemma length_append (a b : string) :
  String.length (a ++ b) = (String.length a + String.length b)%nat.
Proof. induction a as [|x a IH]; cbn; [reflexivity | now rewrite IH]. Qed.

Lemma charAt_middle (pre rest : string) (c : ascii) :
  charAt (pre ++ String c rest) (Z.of_nat (String.length pre)) = chr c.
Proof.
  rewrite charAt_of_nat.
  induction pre as [|x pre IH]; cbn; [reflexivity | exact IH].
Qed.

Lemma consumeLoop_feed (w : string) :
  forall (pre post : string) (s : ArgumentSplitter.t),
    consumeLoop (pre ++ w ++ post) (String.length w)
                (Z.of_nat (String.length pre)) s =
    feed w (Z.of_nat (String.length pre)) s.
Proof.
  induction w as [|c w IH]; intros pre post s; [reflexivity|].
  cbn [String.length consumeLoop feed append].
  rewrite charAt_middle.
  destruct (consumeChar (chr c) (Z.of_nat (String.length pre)) s) as [u s1 | e s1];
    [|reflexivity].
  specialize (IH (pre ++ chr c) post s1).
  rewrite append_assoc, length_append in IH. cbn [chr append String.length] in IH.
  replace (Z.of_nat (String.length pre + 1)) with (Z.of_nat (String.length pre) + 1)
    in IH by lia.
  exact IH.
Qed.

(** [scan] in terms of [feed]. *)
Lemma scan_feed (content : string) (s : ArgumentSplitter.t) :
  scan content s =
  match feed content 0 s with
  | Normal _ s' => consumeChar EmptyString (Z.of_nat (String.length content)) s'
  | Throw e s' => Throw e s'
  end.
Proof.
  unfold scan.
  pose proof (consumeLoop_feed content EmptyString EmptyString s) as H.
  cbn [append String.length Z.of_nat] in H. rewrite append_empty_r in H.
  now rewrite H.
Qed.

Lemma feed_app (u : string) :
  forall (v : string) (i : Z) (s : ArgumentSplitter.t),
    feed (u ++ v) i s =
    match feed u i s with
    | Normal _ s' => feed v (i + Z.of_nat (String.length u)) s'
    | Throw e s' => Throw e s'
    end.
Proof.
  induction u as [|c u IH]; intros v i s.
  - cbn. now rewrite Z.add_0_r.
  - cbn [append feed String.length].
    destruct (consumeChar (chr c) i s) as [x s1 | e s1]; [|reflexivity].
    rewrite IH. replace (i + 1 + Z.of_nat (String.length u))
      with (i + Z.of_nat (S (String.length u))) by lia.
    reflexivity.
Qed.

(** ** Single steps on a state of a known shape *)

Lemma isWhitespace_not_special (c : string) :
  isWhitespace c = true ->
  (c =? backslash) = false /\ (c =? doubleQuote) = false /\
  (c =? backtick) = false /\ (c =? EmptyString) = false.
Proof.
  unfold isWhitespace. intros H.
  repeat (apply orb_prop in H; destruct H as [H | H]);
    apply String.eqb_eq in H; subst c; repeat split; reflexivity.
Qed.

Lemma chr_not_empty (a : ascii) : (chr a =? EmptyString) = false.
Proof. reflexivity. Qed.

Lemma isOrdinaryChar_inv (a : ascii) :
  isOrdinaryChar a = true ->
  isWhitespace (chr a) = false /\ (chr a =? backslash) = false /\
  (chr a =? doubleQuote) = false /\ (chr a =? backtick) = false.
Proof.
  unfold isOrdinaryChar. intros H.
  repeat (apply andb_prop in H; destruct H as [H ?]).
  repeat split; now apply negb_true_iff.
Qed.

(** An ordinary character outside any group joins the word in progress, or
    starts one at its own index. *)
Lemma step_ordinary (a : ascii) (i st pa : Z) (esc : bool) (g : GroupType.t)
    (nx : string) (ar : list SplitArgument) :
  isOrdinaryChar a = true -> g = GroupType.New \/ g = GroupType.None ->
  consumeChar (chr a) i (make esc st g nx (mkBackticks pa 0) ar) =
  Normal tt (make false (match g with GroupType.New => i | _ => st end)
               GroupType.None (nx ++ chr a) (mkBackticks pa 0) ar).
Proof.
  intros H Hg. destruct (isOrdinaryChar_inv a H) as (E1 & E2 & E3 & E4).
  unfold consumeChar, consumeNormalChar, appendChar.
  cbn [group escaped backticks present next].
  rewrite E1, E2, E3, E4, chr_not_empty.
  destruct Hg as [-> | ->]; reflexivity.
Qed.

(** Whitespace outside any group ends the word in progress. *)
Lemma step_whitespace (a : ascii) (i st pa : Z) (esc : bool) (g : GroupType.t)
    (nx : string) (ar : list SplitArgument) :
  isWhitespace (chr a) = true -> g = GroupType.New \/ g = GroupType.None ->
  consumeChar (chr a) i (make esc st g nx (mkBackticks pa 0) ar) =
  Normal tt (pushArg (make esc st g nx (mkBackticks pa 0) ar)).
Proof.
  intros H Hg. destruct (isWhitespace_not_special _ H) as (E1 & E2 & E3 & E4).
  unfold consumeChar, consumeNormalChar.
  cbn [group escaped backticks present next].
  rewrite H, E1, E2, E3.
  destruct Hg as [-> | ->]; reflexivity.
Qed.

Lemma pushArg_word (st : Z) (esc : bool) (nx : string) (bt : Backticks)
    (ar : list SplitArgument) :
  nx <> EmptyString ->
  pushArg (make esc st GroupType.None nx bt ar) =
  make esc st GroupType.New EmptyString bt
       (ar ++ [mkSplitArgument nx GroupType.None st]).
Proof.
  intros H. unfold pushArg. cbn [next group].
  destruct (String.eqb_spec nx EmptyString); [contradiction | reflexivity].
Qed.

Lemma pushArg_idle (st : Z) (esc : bool) (bt : Backticks) (ar : list SplitArgument) :
  pushArg (make esc st GroupType.New EmptyString bt ar) =
  make esc st GroupType.New EmptyString bt ar.
Proof. reflexivity. Qed.

Lemma feed_cons (c : ascii) (rest : string) (i : Z) (s : ArgumentSplitter.t) :
  feed (String c rest) i s =
  match consumeChar (chr c) i s with
  | Normal _ s' => feed rest (i + 1) s'
  | Throw e s' => Throw e s'
  end.
Proof. reflexivity. Qed.

(** A word, fed outside any group. *)
Lemma feed_word (w : string) :
  forall (a : ascii) (i st pa : Z) (esc : bool) (g : GroupType.t) (nx : string)
         (ar : list SplitArgument),
    forallChars isOrdinaryChar (String a w) = true ->
    g = GroupType.New \/ g = GroupType.None ->
    feed (String a w) i (make esc st g nx (mkBackticks pa 0) ar) =
    Normal tt (make false (match g with GroupType.New => i | _ => st end)
                 GroupType.None (nx ++ String a w) (mkBackticks pa 0) ar).
Proof.
  induction w as [|b w IH]; intros a i st pa esc g nx ar H Hg;
    cbn [forallChars] in H; apply andb_prop in H; destruct H as [Ha Hw];
    rewrite feed_cons, step_ordinary by assumption.
  - reflexivity.
  - rewrite IH by auto. rewrite append_assoc. destruct g; reflexivity.
Qed.

(** A gap, fed while no word is in progress. *)
Lemma feed_gap_idle (g : string) :
  forall (i st pa : Z) (esc : bool) (ar : list SplitArgument),
    isGap g = true ->
    feed g i (make esc st GroupType.New EmptyString (mkBackticks pa 0) ar) =
    Normal tt (make esc st GroupType.New EmptyString (mkBackticks pa 0) ar).
Proof.
  induction g as [|a g IH]; intros i st pa esc ar H; [reflexivity|].
  cbn [isGap forallChars] in H. apply andb_prop in H. destruct H as [Ha Hg].
  rewrite feed_cons, step_whitespace by auto. rewrite pushArg_idle.
  now apply IH.
Qed.

(** A gap of one character or more, fed after a word. *)
Lemma feed_gap_word (g : string) (i st pa : Z) (esc : bool) (nx : string)
    (ar : list SplitArgument) :
  isGap g = true -> g <> EmptyString -> nx <> EmptyString ->
  feed g i (make esc st GroupType.None nx (mkBackticks pa 0) ar) =
  Normal tt (make esc st GroupType.New EmptyString (mkBackticks pa 0)
               (ar ++ [mkSplitArgument nx GroupType.None st])).
Proof.
  intros H Hne Hnx. destruct g as [|a g]; [contradiction|].
  cbn [isGap forallChars] in H. apply andb_prop in H. destruct H as [Ha Hg].
  rewrite feed_cons, step_whitespace by auto. rewrite pushArg_word by assumption.
  now apply feed_gap_idle.
Qed.

(** ** Blank input and lines of words *)

Lemma isWord_inv (w : string) :
  isWord w = true ->
  exists a w', w = String a w' /\ forallChars isOrdinaryChar (String a w') = true.
Proof.
  unfold isWord. destruct w as [|a w']; [discriminate|]. cbn [negb String.eqb andb].
  eauto.
Qed.

(** The states between the words of a line: no group open, nothing pending
    among the backticks, and either no word in progress or a word that holds
    a character. *)
Lemma feed_wordsLine (l : list (string * string)) :
  forall (first : bool) (i st pa : Z) (esc : bool) (g : GroupType.t) (nx : string)
         (ar : list SplitArgument),
    lineOk first l = true ->
    (first = true /\ g = GroupType.New /\ nx = EmptyString) \/
    (first = false /\ g = GroupType.None /\ nx <> EmptyString) ->
    exists st' esc' g' nx' ar',
      feed (wordsLine l) i (make esc st g nx (mkBackticks pa 0) ar) =
      Normal tt (make esc' st' g' nx' (mkBackticks pa 0) ar') /\
      pendingTokens (make esc' st' g' nx' (mkBackticks pa 0) ar') =
      (pendingTokens (make esc st g nx (mkBackticks pa 0) ar) ++ wordTokens i l)%list /\
      ((g' = GroupType.New /\ nx' = EmptyString) \/
       (g' = GroupType.None /\ nx' <> EmptyString)).
Proof.
  induction l as [|[gap w] l IH]; intros first i st pa esc g nx ar Hl Hs.
  - exists st, esc, g, nx, ar. cbn [wordsLine feed wordTokens].
    rewrite app_nil_r. repeat split; tauto.
  - cbn [lineOk] in Hl.
    repeat (apply andb_prop in Hl; destruct Hl as [Hl ?]).
    destruct (isWord_inv w) as (a & w' & Ew & Hw); [assumption|]. subst w.
    cbn [wordsLine wordTokens]. rewrite feed_app.
    assert (Hgap : exists ar0,
               feed gap i (make esc st g nx (mkBackticks pa 0) ar) =
               Normal tt (make esc st GroupType.New EmptyString (mkBackticks pa 0) ar0) /\
               ar0 = pendingTokens (make esc st g nx (mkBackticks pa 0) ar)).
    { destruct Hs as [(-> & -> & ->) | (-> & -> & Hnx)].
      - exists ar. rewrite feed_gap_idle by assumption.
        split; [reflexivity|]. unfold pendingTokens; cbn. now rewrite app_nil_r.
      - cbn [orb] in Hl. apply negb_true_iff, String.eqb_neq in Hl.
        eexists. rewrite feed_gap_word by assumption. split; reflexivity. }
    destruct Hgap as (ar0 & -> & Ear0).
    rewrite feed_app, feed_word by auto. cbn [append].
    destruct (IH false
                (i + Z.of_nat (String.length gap) + Z.of_nat (String.length (String a w')))
                (i + Z.of_nat (String.length gap)) pa false GroupType.None
                (String a w') ar0)
      as (st' & esc' & g' & nx' & ar' & E & P & S); [assumption | |].
    { right. repeat split. discriminate. }
    exists st', esc', g', nx', ar'. rewrite E. split; [reflexivity|].
    split; [|exact S]. rewrite P, <- Ear0.
    unfold pendingTokens at 1. cbn [args group next startOfCurrentGroup].
    rewrite <- app_assoc. reflexivity.
Qed.

(** The end of the input after the last word: a gap, then the end-of-input
    character. *)
Lemma finish_line (trail : string) (i j st pa : Z) (esc : bool) (g : GroupType.t)
    (nx : string) (ar : list SplitArgument) :
  isGap trail = true ->
  (g = GroupType.New /\ nx = EmptyString) \/
  (g = GroupType.None /\ nx <> EmptyString) ->
  exists s1,
    feed trail i (make esc st g nx (mkBackticks pa 0) ar) = Normal tt s1 /\
    consumeChar EmptyString j s1 =
    Normal tt (make esc st GroupType.New EmptyString (mkBackticks pa 0)
                 (pendingTokens (make esc st g nx (mkBackticks pa 0) ar))).
Proof.
  intros Ht [(-> & ->) | (-> & Hnx)].
  - eexists. rewrite feed_gap_idle by assumption. split; [reflexivity|].
    unfold pendingTokens; cbn [args group]. rewrite app_nil_r. reflexivity.
  - destruct (String.eqb_spec trail EmptyString) as [-> | Hne].
    + eexists. split; [reflexivity|].
      change (consumeChar EmptyString j (make esc st GroupType.None nx (mkBackticks pa 0) ar))
        with (Normal tt (pushArg (make esc st GroupType.None nx (mkBackticks pa 0) ar))).
      now rewrite pushArg_word.
    + eexists. rewrite feed_gap_word by assumption. split; reflexivity.
Qed.

(** X2.  A line of words, each a run of ordinary characters, with any
    whitespace before the first word, one whitespace character or more
    between two words and any whitespace after the last, splits into exactly
    its words, in order, as plain tokens that start where the words start. *)
Theorem split_words_line (l : list (string * string)) (trail : string) :
  lineOk true l = true -> isGap trail = true ->
  (exists s,
     split (wordsLine l ++ trail) new =
     Normal (SplitArgumentArray.make (wordsLine l ++ trail) (wordTokens 0 l)) s) /\
  map content (wordTokens 0 l) = map snd l.
Proof.
  intros Hl Ht. split.
  - unfold split. rewrite scan_feed, feed_app.
    destruct (feed_wordsLine l true 0 0 0 false GroupType.New EmptyString [] Hl)
      as (st' & esc' & g' & nx' & ar' & E & P & S); [auto|].
    fold new in E. rewrite E.
    destruct (finish_line trail (0 + Z.of_nat (String.length (wordsLine l)))
                (Z.of_nat (String.length (wordsLine l ++ trail)))
                st' 0 esc' g' nx' ar' Ht S) as (s1 & F & C).
    rewrite F, C. cbn [group GroupType.eqb negb args].
    rewrite P. eexists. reflexivity.
  - clear. generalize 0. induction l as [|[g w] l IH]; intros i; cbn;
      [reflexivity|]. f_equal. apply IH.
Qed.

Lemma split_words_line_witness :
  exists s,
    split " say  hello world " new =
    Normal (SplitArgumentArray.make " say  hello world "
              [mkSplitArgument "say" GroupType.None 1;
               mkSplitArgument "hello" GroupType.None 6;
               mkSplitArgument "world" GroupType.None 12]) s.
Proof.
  destruct (split_words_line [(" ", "say"); ("  ", "hello"); (" ", "world")] " ")
    as [H _]; [reflexivity | reflexivity |].
  exact H.
Defined.

(** X1.  An input of whitespace only, the empty input included, splits into
    no token at all and leaves the instance as it was created. *)
Theorem split_blank_input (g : string) :
  isGap g = true ->
  split g new = Normal (SplitArgumentArray.make g []) new.
Proof.
  intros H. unfold split. rewrite scan_feed. unfold new.
  rewrite feed_gap_idle by assumption. reflexivity.
Qed.

Lemma split_blank_input_witness :
  split "   " new = Normal (SplitArgumentArray.make "   " []) new.
Proof. apply (split_blank_input "   "). reflexivity. Defined.

(** ** Quoted groups *)

Lemma step_quoted (a : ascii) (i st : Z) (nx : string) (bt : Backticks)
    (ar : list SplitArgument) :
  isQuotedChar a = true ->
  consumeChar (chr a) i (make false st GroupType.DoubleQuote nx bt ar) =
  Normal tt (make false st GroupType.DoubleQuote (nx ++ chr a) bt ar).
Proof.
  unfold isQuotedChar. intros H. apply andb_prop in H. destruct H as [E1 E2].
  apply negb_true_iff in E1, E2.
  unfold consumeChar, consumeNormalChar, appendChar.
  cbn [group escaped next GroupType.eqb orb andb negb].
  rewrite E1, E2, chr_not_empty.
  destruct (isWhitespace (chr a)); reflexivity.
Qed.

Lemma feed_quoted (w : string) :
  forall (i st : Z) (nx : string) (bt : Backticks) (ar : list SplitArgument),
    forallChars isQuotedChar w = true ->
    feed w i (make false st GroupType.DoubleQuote nx bt ar) =
    Normal tt (make false st GroupType.DoubleQuote (nx ++ w) bt ar).
Proof.
  induction w as [|a w IH]; intros i st nx bt ar H.
  - cbn. now rewrite append_empty_r.
  - cbn [forallChars] in H. apply andb_prop in H. destruct H as [Ha Hw].
    rewrite feed_cons, step_quoted by assumption.
    rewrite IH by assumption. rewrite append_assoc. reflexivity.
Qed.

Lemma step_close_quote (i st : Z) (nx : string) (bt : Backticks)
    (ar : list SplitArgument) :
  consumeChar doubleQuote i (make false st GroupType.DoubleQuote nx bt ar) =
  Normal tt (make false st GroupType.New EmptyString bt
               (ar ++ [mkSplitArgument nx GroupType.DoubleQuote st])).
Proof.
  unfold consumeChar, consumeNormalChar, pushArg.
  cbn [group escaped next GroupType.eqb orb andb negb String.eqb].
  change (doubleQuote =? backslash) with false.
  change (doubleQuote =? doubleQuote) with true. cbv iota.
  rewrite orb_true_r. reflexivity.
Qed.

(** X3.  A double quote, then any characters other than the double quote and
    the backslash, then a double quote, split into one quoted token whose
    content is exactly the characters between the quotes, whitespace and
    backticks included; without the closing quote [split] throws the
    unfinished-group error. *)
Theorem split_quoted (w : string) :
  forallChars isQuotedChar w = true ->
  (exists s,
     split (doubleQuote ++ w ++ doubleQuote) new =
     Normal (SplitArgumentArray.make (doubleQuote ++ w ++ doubleQuote)
               [mkSplitArgument w GroupType.DoubleQuote 0]) s) /\
  (exists s,
     split (doubleQuote ++ w) new =
     Throw (UnfinishedGroup GroupType.DoubleQuote) s).
Proof.
  intros H.
  assert (Open : consumeChar (chr "034"%char) 0 new =
                 Normal tt (make false 0 GroupType.DoubleQuote EmptyString
                              (mkBackticks 0 0) [])) by reflexivity.
  split.
  - unfold split. rewrite scan_feed.
    change (doubleQuote ++ w ++ doubleQuote)
      with (String "034"%char (w ++ doubleQuote)) at 1.
    rewrite feed_cons, Open, feed_app, feed_quoted by assumption.
    change doubleQuote with (String "034"%char EmptyString) at 1.
    rewrite feed_cons.
    change (chr "034"%char) with doubleQuote.
    rewrite step_close_quote. cbn [feed append].
    eexists. reflexivity.
  - unfold split. rewrite scan_feed.
    change (doubleQuote ++ w) with (String "034"%char w) at 1.
    rewrite feed_cons, Open, feed_quoted by assumption.
    eexists. reflexivity.
Qed.

Lemma split_quoted_witness :
  exists s,
    split (doubleQuote ++ "a `b`  c" ++ doubleQuote) new =
    Normal (SplitArgumentArray.make (doubleQuote ++ "a `b`  c" ++ doubleQuote)
              [mkSplitArgument "a `b`  c" GroupType.DoubleQuote 0]) s.
Proof.
  destruct (split_quoted "a `b`  c") as [H _]; [reflexivity|]. exact H.
Defined.

(** ** Code groups *)

Lemma step_code (a : ascii) (i st pa : Z) (nx : string) (ar : list SplitArgument) :
  isCodeChar a = true ->
  consumeChar (chr a) i (make false st GroupType.CodeBacktick nx (mkBackticks pa 0) ar) =
  Normal tt (make false st GroupType.CodeBacktick (nx ++ chr a) (mkBackticks pa 0) ar).
Proof.
  unfold isCodeChar. intros H. apply andb_prop in H. destruct H as [E1 E2].
  apply negb_true_iff in E1, E2.
  unfold consumeChar, consumeNormalChar, appendChar.
  cbn [group escaped next backticks present GroupType.eqb orb andb negb].
  rewrite E1, E2, chr_not_empty. cbn [andb Z.eqb negb].
  destruct (chr a =? doubleQuote); [reflexivity|].
  destruct (isWhitespace (chr a)); reflexivity.
Qed.

Lemma feed_code (w : string) :
  forall (i st pa : Z) (nx : string) (ar : list SplitArgument),
    forallChars isCodeChar w = true ->
    feed w i (make false st GroupType.CodeBacktick nx (mkBackticks pa 0) ar) =
    Normal tt (make false st GroupType.CodeBacktick (nx ++ w) (mkBackticks pa 0) ar).
Proof.
  induction w as [|a w IH]; intros i st pa nx ar H.
  - cbn. now rewrite append_empty_r.
  - cbn [forallChars] in H. apply andb_prop in H. destruct H as [Ha Hw].
    rewrite feed_cons, step_code by assumption.
    rewrite IH by assumption. rewrite append_assoc. reflexivity.
Qed.

(** The character that ends an opening run of one, two or three backticks
    at the start of the input. *)
Lemma step_open_code (k : nat) (a : ascii) :
  (1 <= k <= 3)%nat -> isCodeChar a = true ->
  consumeChar (chr a) (Z.of_nat k)
    (make false 0 GroupType.New EmptyString (mkBackticks 0 (Z.of_nat k)) []) =
  Normal tt (make false 0 GroupType.CodeBacktick (chr a)
               (mkBackticks (Z.of_nat k) 0) []).
Proof.
  intros Hk H. unfold isCodeChar in H. apply andb_prop in H. destruct H as [E1 _].
  apply negb_true_iff in E1.
  unfold consumeChar. cbn [group escaped GroupType.eqb negb andb]. rewrite E1.
  destruct k as [|[|[|[|k]]]]; try lia; reflexivity.
Qed.

Lemma feed_backticks_new (k : nat) :
  (k <= 3)%nat ->
  feed (repeatString backtick k) 0 new =
  Normal tt (make false 0 GroupType.New EmptyString (mkBackticks 0 (Z.of_nat k)) []).
Proof. intros Hk. destruct k as [|[|[|[|k]]]]; try lia; reflexivity. Qed.

Lemma feed_backticks_code (k : nat) (i pa : Z) (nx : string)
    (ar : list SplitArgument) :
  (k <= 3)%nat ->
  feed (repeatString backtick k) i
    (make false 0 GroupType.CodeBacktick nx (mkBackticks pa 0) ar) =
  Normal tt (make false 0 GroupType.CodeBacktick nx (mkBackticks pa (Z.of_nat k)) ar).
Proof. intros Hk. destruct k as [|[|[|[|k]]]]; try lia; reflexivity. Qed.

(** The end of the input right after a closing run as wide as the opening
    one. *)
Lemma step_end_code (k : nat) (j : Z) (nx : string) (ar : list SplitArgument) :
  (1 <= k <= 3)%nat ->
  consumeChar EmptyString j
    (make false 0 GroupType.CodeBacktick nx
          (mkBackticks (Z.of_nat k) (Z.of_nat k)) ar) =
  Normal tt (make false 0 GroupType.New EmptyString (mkBackticks 0 0)
               (ar ++ [mkSplitArgument nx GroupType.CodeBacktick 0])).
Proof.
  intros Hk.
  destruct k as [|[|[|[|k]]]]; try lia;
    unfold consumeChar, pushArg;
    cbn [group escaped next backticks past present GroupType.eqb orb andb negb
         setPresent Z.of_nat Pos.of_succ_nat Pos.succ Z.eqb Z.ltb Z.compare
         Pos.compare Pos.compare_cont Pos.eqb String.eqb Ascii.eqb Bool.eqb
         backtick Z.sub Z.add Z.opp Z.pos_sub Z.succ_double Z.pred_double Z.double
         Pos.pred_double];
    rewrite orb_true_r; reflexivity.
Qed.

(** X4.  One, two or three backticks, then one character or more other than
    the backtick and the backslash, then as many backticks as at the start,
    split into one code token whose content is exactly the characters in
    between, whitespace and double quotes included. *)
Theorem split_code (k : nat) (w : string) :
  (1 <= k <= 3)%nat -> w <> EmptyString -> forallChars isCodeChar w = true ->
  exists s,
    split (repeatString backtick k ++ w ++ repeatString backtick k) new =
    Normal (SplitArgumentArray.make
              (repeatString backtick k ++ w ++ repeatString backtick k)
              [mkSplitArgument w GroupType.CodeBacktick 0]) s.
Proof.
  intros Hk Hne Hw. destruct w as [|a w]; [contradiction|].
  cbn [forallChars] in Hw. apply andb_prop in Hw. destruct Hw as [Ha Hw].
  assert (Hlen : String.length (repeatString backtick k) = k).
  { clear. induction k; cbn; [reflexivity | now rewrite IHk]. }
  unfold split. rewrite scan_feed, feed_app, feed_backticks_new by lia.
  cbn [append]. rewrite feed_cons, Hlen. cbn [Z.add].
  rewrite step_open_code by assumption.
  rewrite feed_app, feed_code by assumption.
  rewrite feed_backticks_code by lia.
  rewrite step_end_code by assumption.
  cbn [group GroupType.eqb negb args app append chr].
  eexists. reflexivity.
Qed.

Lemma split_code_witness :
  exists s,
    split "```let x = 1```" new =
    Normal (SplitArgumentArray.make "```let x = 1```"
              [mkSplitArgument "let x = 1" GroupType.CodeBacktick 0]) s.
Proof.
  apply (split_code 3 "let x = 1"); [lia | discriminate | reflexivity].
Defined.

(** ** The backslash outside any group *)

Lemma feed_ordinary (w : string) (i st pa : Z) (esc : bool) (g : GroupType.t)
    (nx : string) (ar : list SplitArgument) :
  forallChars isOrdinaryChar w = true ->
  g = GroupType.New \/ g = GroupType.None ->
  feed w i (make esc st g nx (mkBackticks pa 0) ar) =
  Normal tt
    match w with
    | EmptyString => make esc st g nx (mkBackticks pa 0) ar
    | _ => make false (match g with GroupType.New => i | _ => st end)
                GroupType.None (nx ++ w) (mkBackticks pa 0) ar
    end.
Proof.
  intros Hw Hg. destruct w as [|a w]; [reflexivity|]. now apply feed_word.
Qed.

Lemma step_backslash (i st pa : Z) (g : GroupType.t) (nx : string)
    (ar : list SplitArgument) :
  g = GroupType.New \/ g = GroupType.None ->
  consumeChar backslash i (make false st g nx (mkBackticks pa 0) ar) =
  Normal tt (make true st g nx (mkBackticks pa 0) ar).
Proof. intros [-> | ->]; reflexivity. Qed.

Lemma step_escaped (c : string) (i st pa : Z) (g : GroupType.t) (nx : string)
    (ar : list SplitArgument) :
  c = backslash \/ c = doubleQuote \/ c = backtick ->
  g = GroupType.New \/ g = GroupType.None ->
  consumeChar c i (make true st g nx (mkBackticks pa 0) ar) =
  Normal tt (make false (match g with GroupType.New => i | _ => st end)
               GroupType.None (nx ++ c) (mkBackticks pa 0) ar).
Proof. intros [-> | [-> | ->]] [-> | ->]; reflexivity. Qed.

Lemma step_end_word (j st pa : Z) (esc : bool) (nx : string)
    (ar : list SplitArgument) :
  nx <> EmptyString ->
  consumeChar EmptyString j (make esc st GroupType.None nx (mkBackticks pa 0) ar) =
  Normal tt (make esc st GroupType.New EmptyString (mkBackticks pa 0)
               (ar ++ [mkSplitArgument nx GroupType.None st])).
Proof.
  intros H.
  change (consumeChar EmptyString j (make esc st GroupType.None nx (mkBackticks pa 0) ar))
    with (Normal tt (pushArg (make esc st GroupType.None nx (mkBackticks pa 0) ar))).
  now rewrite pushArg_word.
Qed.

Lemma feed_escaped (c v : string) (i st pa : Z) (g : GroupType.t) (nx : string)
    (ar : list SplitArgument) :
  c = backslash \/ c = doubleQuote \/ c = backtick ->
  g = GroupType.New \/ g = GroupType.None ->
  feed (c ++ v) i (make true st g nx (mkBackticks pa 0) ar) =
  feed v (i + 1)
    (make false (match g with GroupType.New => i | _ => st end)
          GroupType.None (nx ++ c) (mkBackticks pa 0) ar).
Proof.
  intros Hc Hg.
  pose proof (step_escaped c i st pa g nx ar Hc Hg) as H.
  destruct Hc as [-> | [-> | ->]].
  - change (backslash ++ v) with (String "\"%char v).
    rewrite feed_cons. change (chr "\"%char) with backslash. now rewrite H.
  - change (doubleQuote ++ v) with (String "034"%char v).
    rewrite feed_cons. change (chr "034"%char) with doubleQuote. now rewrite H.
  - change (backtick ++ v) with (String "`"%char v).
    rewrite feed_cons. change (chr "`"%char) with backtick. now rewrite H.
Qed.

Lemma feed_backslash (v : string) (i st pa : Z) (g : GroupType.t) (nx : string)
    (ar : list SplitArgument) :
  g = GroupType.New \/ g = GroupType.None ->
  feed (backslash ++ v) i (make false st g nx (mkBackticks pa 0) ar) =
  feed v (i + 1) (make true st g nx (mkBackticks pa 0) ar).
Proof.
  intros Hg. change (backslash ++ v) with (String "\"%char v).
  rewrite feed_cons. change (chr "\"%char) with backslash.
  now rewrite step_backslash.
Qed.

(** X5.  Outside any group a backslash makes a following backslash, double
    quote or backtick an ordinary character of the word around it: ordinary
    characters, the escape and more ordinary characters split into one plain
    token, without the escaping backslash, that starts at the first of its
    characters that is kept. *)
Theorem split_escaped_special (u v c : string) :
  forallChars isOrdinaryChar u = true -> forallChars isOrdinaryChar v = true ->
  c = backslash \/ c = doubleQuote \/ c = backtick ->
  exists s,
    split (u ++ backslash ++ c ++ v) new =
    Normal (SplitArgumentArray.make (u ++ backslash ++ c ++ v)
              [mkSplitArgument (u ++ c ++ v) GroupType.None
                 (if u =? EmptyString then 1 else 0)]) s.
Proof.
  intros Hu Hv Hc.
  assert (Hne : forall x y, (x ++ c) ++ y <> EmptyString).
  { intros x y E. apply append_eq_empty in E. destruct E as [E _].
    apply append_eq_empty in E. destruct E as [_ E].
    destruct Hc as [-> | [-> | ->]]; discriminate E. }
  assert (Hne' : forall x, x ++ c <> EmptyString).
  { intros x E. apply (Hne x EmptyString). now rewrite append_empty_r. }
  unfold split. rewrite scan_feed, feed_app. unfold new.
  rewrite feed_ordinary by auto.
  assert (Hfin : forall st off nx tok,
             nx <> EmptyString -> tok = nx -> off = st ->
             exists s,
               match
                 consumeChar EmptyString
                   (Z.of_nat (String.length (u ++ backslash ++ c ++ v)))
                   (make false st GroupType.None nx (mkBackticks 0 0) [])
               with
               | Normal _ s' =>
                   if negb (GroupType.eqb (group s') GroupType.New)
                   then Throw (UnfinishedGroup (group s')) s'
                   else Normal (SplitArgumentArray.make (u ++ backslash ++ c ++ v)
                                  (args s')) s'
               | Throw e s' => Throw e s'
               end =
               Normal (SplitArgumentArray.make (u ++ backslash ++ c ++ v)
                         [mkSplitArgument tok GroupType.None off]) s).
  { intros st off nx tok Hnx -> ->. rewrite step_end_word by assumption.
    eexists. reflexivity. }
  destruct u as [|a u].
  - rewrite feed_backslash, feed_escaped by auto.
    rewrite feed_ordinary by auto.
    destruct v as [|b v]; apply Hfin;
      lazymatch goal with
      | |- _ <> _ => first [apply Hne | apply Hne']
      | |- _ = _ => first [reflexivity | now rewrite ?append_empty_r, ?append_assoc]
      end.
  - rewrite feed_backslash, feed_escaped by auto.
    rewrite feed_ordinary by auto.
    destruct v as [|b v]; apply Hfin;
      lazymatch goal with
      | |- _ <> _ => first [apply Hne | apply Hne']
      | |- _ = _ => first [reflexivity | now rewrite ?append_empty_r, ?append_assoc]
      end.
Qed.

Lemma split_escaped_special_witness :
  exists s,
    split "a\`b" new =
    Normal (SplitArgumentArray.make "a\`b"
              [mkSplitArgument "a`b" GroupType.None 0]) s.
Proof.
  apply (split_escaped_special "a" "b" backtick); [reflexivity | reflexivity |].
  right. right. reflexivity.
Defined.

(** X6.  Outside any group a backslash protects neither whitespace nor the
    end of the input: a word, a backslash, a whitespace character and a word
    split into the two words, and a word followed by a backslash into the
    word; the backslash is in no token. *)
Theorem split_escape_before_whitespace (u v : string) (a : ascii) :
  isWord u = true -> isWord v = true -> isWhitespace (chr a) = true ->
  (exists s,
     split (u ++ backslash ++ chr a ++ v) new =
     Normal (SplitArgumentArray.make (u ++ backslash ++ chr a ++ v)
               [mkSplitArgument u GroupType.None 0;
                mkSplitArgument v GroupType.None (Z.of_nat (String.length u) + 2)]) s) /\
  (exists s,
     split (u ++ backslash) new =
     Normal (SplitArgumentArray.make (u ++ backslash)
               [mkSplitArgument u GroupType.None 0]) s).
Proof.
  intros Hu Hv Ha.
  destruct (isWord_inv u Hu) as (x & u' & -> & Hu').
  destruct (isWord_inv v Hv) as (y & v' & -> & Hv').
  split.
  - unfold split. rewrite scan_feed, feed_app. unfold new.
    rewrite feed_word by auto. rewrite feed_backslash by auto.
    change (chr a ++ String y v') with (String a (String y v')).
    rewrite feed_cons, step_whitespace by auto.
    rewrite pushArg_word by discriminate.
    rewrite feed_word by auto.
    rewrite step_end_word by discriminate.
    cbn [group GroupType.eqb negb args app append].
    replace (0 + Z.of_nat (String.length (String x u')) + 1 + 1)
      with (Z.of_nat (String.length (String x u')) + 2) by lia.
    eexists. reflexivity.
  - unfold split. rewrite scan_feed, feed_app. unfold new.
    rewrite feed_word by auto.
    match goal with
    | |- context [feed backslash ?i ?st] =>
        change (feed backslash i st) with (feed (backslash ++ EmptyString) i st)
    end.
    rewrite feed_backslash by auto. cbn [feed].
    rewrite step_end_word by discriminate.
    eexists. reflexivity.
Qed.

Lemma split_escape_before_whitespace_witness :
  exists s,
    split "ab\ cd" new =
    Normal (SplitArgumentArray.make "ab\ cd"
              [mkSplitArgument "ab" GroupType.None 0;
               mkSplitArgument "cd" GroupType.None 4]) s.
Proof.
  destruct (split_escape_before_whitespace "ab" "cd" " "%char) as [H _];
    [reflexivity | reflexivity | reflexivity |].
  exact H.
Defined.

(** ** What every token of an instance satisfies *)

Section TokenPredicate.

Variable P : SplitArgument -> Prop.

(** [pushArg] is the only method that adds a token; a property of tokens that
    it keeps is kept by every call of [split]. *)
Hypothesis pushArg_keeps :
  forall s : ArgumentSplitter.t, Forall P (args s) -> Forall P (args (pushArg s)).

Lemma consumeNormalChar_keeps (char : string) (k : Z) (s : ArgumentSplitter.t) :
  Forall P (args s) -> Forall P (args (consumeNormalChar char k s)).
Proof.
  intros H. unfold consumeNormalChar.
  pose proof (pushArg_keeps s H) as Hp.
  assert (Ha : forall c x, args (appendChar c k x) = args x)
    by (intros c x; apply appendChar_frame).
  repeat match goal with
         | |- context [if ?b then _ else _] => destruct b
         end;
    rewrite ?Ha; cbn [newGroup setStartOfCurrentGroup setGroup setEscaped args];
    assumption.
Qed.

Lemma completeGroupsLoop_keeps (n : nat) :
  forall (lookbackIndex : Z) (s : ArgumentSplitter.t),
    Forall P (args s) ->
    Forall P (args (snd (completeGroupsLoop n lookbackIndex s))).
Proof.
  induction n as [|n IH]; intros lb s H; cbn [completeGroupsLoop]; [exact H|].
  apply IH. apply (pushArg_keeps (newGroup GroupType.CodeBacktick lb s)). exact H.
Qed.

Lemma handleExtraBackticks_keeps (i : Z) (s : ArgumentSplitter.t) :
  Forall P (args s) -> Forall P (args (handleExtraBackticks i s)).
Proof.
  intros H. unfold handleExtraBackticks.
  match goal with
  | |- context [completeGroupsLoop ?n ?l s] =>
      pose proof (completeGroupsLoop_keeps n l s H) as H';
      destruct (completeGroupsLoop n l s) as [lb s1]
  end.
  cbn [snd] in H'.
  destruct (_ =? 1)%Z.
  - rewrite (proj1 (proj2 (appendChar_frame _ _ _))). exact H'.
  - destruct (negb _); exact H'.
Qed.

Lemma consumeAfterBackticks_keeps (char : string) (i : Z) (s : ArgumentSplitter.t) :
  Forall P (args s) -> Forall P (args (consumeAfterBackticks char i s)).
Proof.
  intros H. unfold consumeAfterBackticks. destruct (GroupType.eqb _ _).
  - now rewrite (proj1 (proj2 (appendChar_frame _ _ _))).
  - now apply consumeNormalChar_keeps.
Qed.

Lemma consumeChar_keeps (char : string) (i : Z) (s : ArgumentSplitter.t) :
  Forall P (args s) -> Forall P (args (instanceOf (consumeChar char i s))).
Proof.
  intros H. unfold consumeChar.
  repeat match goal with
         | |- context [if ?b then _ else _] => destruct b
         end;
    cbn [instanceOf]; try assumption;
    try (now apply consumeNormalChar_keeps).
  - apply consumeAfterBackticks_keeps, handleExtraBackticks_keeps.
    apply (pushArg_keeps s H).
  - now rewrite (proj1 (proj2 (appendChar_frame _ _ _))).
  - apply consumeAfterBackticks_keeps, handleExtraBackticks_keeps.
    apply (pushArg_keeps (setPresent _ s)). exact H.
Qed.

Lemma consumeLoop_keeps (content : string) (n : nat) :
  forall (i : Z) (s : ArgumentSplitter.t),
    Forall P (args s) ->
    Forall P (args (instanceOf (consumeLoop content n i s))).
Proof.
  induction n as [|n IH]; intros i s H; cbn [consumeLoop]; [exact H|].
  pose proof (consumeChar_keeps (charAt content i) i s H) as H'.
  destruct (consumeChar (charAt content i) i s) as [u s1 | e s1]; cbn in H'.
  - now apply IH.
  - exact H'.
Qed.

Lemma split_keeps (content : string) (s : ArgumentSplitter.t) :
  Forall P (args s) -> Forall P (args (instanceOf (split content s))).
Proof.
  intros H. unfold split, scan.
  pose proof (consumeLoop_keeps content (String.length content) 0 s H) as H1.
  destruct (consumeLoop content (String.length content) 0 s) as [u s1 | e s1];
    cbn in H1; [|exact H1].
  pose proof (consumeChar_keeps EmptyString (Z.of_nat (String.length content)) s1 H1)
    as H2.
  destruct (consumeChar EmptyString (Z.of_nat (String.length content)) s1)
    as [u' s2 | e s2]; cbn in H2; [|exact H2].
  destruct (negb _); exact H2.
Qed.

Lemma reachable_keeps (s : ArgumentSplitter.t) :
  reachable s -> Forall P (args s).
Proof.
  induction 1 as [|content s Hr IH]; [constructor|]. now apply split_keeps.
Qed.

End TokenPredicate.

Lemma split_returns_instance_args (content : string) (s s' : ArgumentSplitter.t)
    (r : SplitArgumentArray.t) :
  split content s = Normal r s' ->
  SplitArgumentArray.args r = args s' /\ s' = instanceOf (split content s) /\
  SplitArgumentArray.original r = content.
Proof.
  intros H. rewrite H. cbn [instanceOf]. revert H. unfold split.
  destruct (scan content s) as [u x | e x]; [|discriminate].
  destruct (negb _); [discriminate|]. intros [= <- <-]. auto.
Qed.

(** X7.  A plain token is never empty: on every instance a caller can hold,
    a token that [split] returns with the kind of an ungrouped word holds at
    least one character; only quoted and code tokens can be empty. *)
Theorem split_plain_tokens_not_empty
    (input : string) (s s' : ArgumentSplitter.t) (r : SplitArgumentArray.t) :
  reachable s -> split input s = Normal r s' ->
  Forall (fun a => isNormal a = true -> content a <> EmptyString)
         (SplitArgumentArray.args r).
Proof.
  intros Hr H. destruct (split_returns_instance_args _ _ _ _ H) as (-> & -> & _).
  apply reachable_keeps; [|now constructor].
  clear. intros [esc st g nx bt ar] H. unfold pushArg.
  cbn [next group args startOfCurrentGroup] in *.
  destruct (String.eqb_spec nx EmptyString) as [E | E]; cbn [negb orb].
  - destruct g; cbn; try assumption; apply Forall_app; split; try assumption;
      (constructor; [intros Hn; discriminate Hn | constructor]).
  - cbn. apply Forall_app; split; [assumption|].
    constructor; [|constructor]. intros _. exact E.
Qed.

Lemma split_plain_tokens_not_empty_witness :
  exists r,
    split (doubleQuote ++ doubleQuote ++ " a") new =
      Normal r (instanceOf (split (doubleQuote ++ doubleQuote ++ " a") new)) /\
    List.length (SplitArgumentArray.args r) = 2%nat /\
    Forall (fun a => isNormal a = true -> content a <> EmptyString)
           (SplitArgumentArray.args r).
Proof.
  eexists. split; [vm_compute; reflexivity|]. split; [reflexivity|].
  apply (split_plain_tokens_not_empty (doubleQuote ++ doubleQuote ++ " a") new
           (instanceOf (split (doubleQuote ++ doubleQuote ++ " a") new))).
  - exact reachable_new.
  - vm_compute. reflexivity.
Defined.

(** ** Start offsets increase strictly *)

Lemma below_weaken (b b' : Z) (l : list SplitArgument) :
  b <= b' -> Forall (fun a => originalIndex a < b) l ->
  Forall (fun a => originalIndex a < b') l.
Proof.
  intros Hle H. eapply Forall_impl; [|exact H]. cbn. intros a Ha. lia.
Qed.

Lemma increasing_snoc (l : list SplitArgument) (x : SplitArgument) :
  increasing l -> Forall (fun a => originalIndex a < originalIndex x) l ->
  increasing (l ++ [x]).
Proof.
  intros Hs Hf p q a b Hpq Ha Hb.
  assert (Hq : (q < List.length (l ++ [x]))%nat)
    by (apply nth_error_Some; congruence).
  rewrite length_app in Hq. cbn in Hq.
  rewrite nth_error_app1 in Ha by lia.
  destruct (Nat.lt_ge_cases q (List.length l)) as [Hql | Hql].
  - rewrite nth_error_app1 in Hb by lia. eauto.
  - rewrite nth_error_app2 in Hb by lia.
    replace (q - List.length l)%nat with 0%nat in Hb by lia.
    cbn in Hb. injection Hb as <-.
    apply nth_error_In in Ha. rewrite Forall_forall in Hf. auto.
Qed.

Lemma increasing_nil : increasing [].
Proof. intros p q a b _ Ha. destruct p; discriminate. Qed.

Lemma Spaced_mono (b b' : Z) (s : ArgumentSplitter.t) :
  b <= b' -> Spaced b s -> Spaced b' s.
Proof.
  intros Hle [H1 H2 H3]. constructor; [assumption | |].
  - eapply below_weaken; eassumption.
  - intros Hg. destruct (H3 Hg). split; [assumption | lia].
Qed.

Lemma Spaced_fields (b : Z) (s s' : ArgumentSplitter.t) :
  args s' = args s -> group s' = group s ->
  startOfCurrentGroup s' = startOfCurrentGroup s ->
  Spaced b s -> Spaced b s'.
Proof.
  intros Ea Eg Es [H1 H2 H3]. constructor; rewrite ?Ea, ?Eg, ?Es; assumption.
Qed.

Lemma pushArg_Spaced (b : Z) (s : ArgumentSplitter.t) :
  Core s -> Spaced b s -> Spaced b (pushArg s).
Proof.
  destruct s as [esc st g nx bt ar]. intros [C1 C2 C3 C4 C5] [H1 H2 H3].
  cbn [args group next startOfCurrentGroup] in *.
  assert (Hpush : g <> GroupType.New ->
                  Spaced b (make esc st GroupType.New EmptyString bt
                              (ar ++ [mkSplitArgument nx g st]))).
  { intros Hg. destruct (H3 Hg) as [T B].
    constructor; cbn [args group startOfCurrentGroup].
    - apply increasing_snoc; assumption.
    - apply Forall_app. split; [assumption|]. repeat constructor. assumption.
    - intros E. now elim E. }
  assert (Hkeep : Spaced b (make esc st GroupType.New nx bt ar)).
  { constructor; cbn [args group]; try assumption. intros E. now elim E. }
  unfold pushArg. cbn [next group].
  destruct (String.eqb_spec nx EmptyString) as [E | E]; cbn [negb orb].
  - destruct g; cbn; try exact Hkeep; apply Hpush; discriminate.
  - cbn. apply Hpush. intros ->. auto.
Qed.

Lemma newGroup_Spaced (g : GroupType.t) (k : Z) (s : ArgumentSplitter.t) :
  increasing (args s) -> Forall (fun a => originalIndex a < k) (args s) ->
  Spaced (k + 1) (newGroup g k s).
Proof.
  intros H1 H2. constructor; cbn.
  - assumption.
  - eapply below_weaken; [|eassumption]. lia.
  - intros _. split; [assumption | lia].
Qed.

Lemma appendChar_Spaced (char : string) (k : Z) (s : ArgumentSplitter.t) :
  Spaced k s -> Spaced (k + 1) (appendChar char k s).
Proof.
  intros H. unfold appendChar.
  destruct (_ && _).
  - apply (Spaced_fields _ (newGroup GroupType.None k s)); try reflexivity.
    destruct H. now apply newGroup_Spaced.
  - apply (Spaced_fields _ s); try reflexivity.
    eapply Spaced_mono; [|eassumption]. lia.
Qed.

Lemma appendChar_Spaced_open (char : string) (k b : Z) (s : ArgumentSplitter.t) :
  group s <> GroupType.New -> Spaced b s -> Spaced b (appendChar char k s).
Proof.
  intros Hg H.
  destruct (appendChar_frame char k s) as (_ & F2 & _ & _ & _ & F6).
  apply (Spaced_fields _ s); auto.
  unfold appendChar.
  destruct (GroupType_eqb_spec (group s) GroupType.New); [contradiction|].
  reflexivity.
Qed.

Lemma consumeNormalChar_Spaced (char : string) (k : Z) (s : ArgumentSplitter.t) :
  Core s -> Spaced k s ->
  Spaced (k + 1) (consumeNormalChar char k s) /\
  Forall (fun a => originalIndex a < k) (args (consumeNormalChar char k s)).
Proof.
  intros Hc H.
  pose proof (pushArg_Spaced k s Hc H) as Hp.
  assert (Hp1 : Spaced (k + 1) (pushArg s))
    by (eapply Spaced_mono; [|exact Hp]; lia).
  assert (Hs1 : Spaced (k + 1) s) by (eapply Spaced_mono; [|exact H]; lia).
  assert (Ha : forall c e, Spaced (k + 1) (appendChar c k (setEscaped e s))).
  { intros c e. apply appendChar_Spaced. now apply (Spaced_fields _ s). }
  assert (Ha' : forall c, Spaced (k + 1) (appendChar c k s))
    by (intros c; now apply appendChar_Spaced).
  assert (Hq : Spaced (k + 1) (newGroup GroupType.DoubleQuote k (pushArg s)))
    by (destruct Hp; now apply newGroup_Spaced).
  assert (Hargs : forall c x, args (appendChar c k x) = args x)
    by (intros c x; apply appendChar_frame).
  destruct H as [_ Hb _]. destruct Hp as [_ Hpb _].
  unfold consumeNormalChar.
  repeat match goal with
         | |- context [if ?b then _ else _] => destruct b
         end;
    (split; [first [apply Ha | apply Ha' | assumption
                   | now apply (Spaced_fields _ s)]
            | rewrite ?Hargs; cbn [newGroup setStartOfCurrentGroup setGroup
                                    setEscaped args]; assumption]).
Qed.

Lemma emptyCodeTokens_increasing (n : nat) :
  forall (lb : Z) (l : list SplitArgument),
    increasing l -> Forall (fun a => originalIndex a < lb) l ->
    increasing (l ++ emptyCodeTokens n lb) /\
    Forall (fun a => originalIndex a < lb + 6 * Z.of_nat n)
           (l ++ emptyCodeTokens n lb).
Proof.
  induction n as [|n IH]; intros lb l Hs Hb.
  - cbn [emptyCodeTokens]. rewrite app_nil_r. split; [assumption|].
    eapply below_weaken; [|eassumption]. lia.
  - cbn [emptyCodeTokens].
    change (l ++ ?x :: ?r)%list with (l ++ [x] ++ r)%list.
    rewrite app_assoc.
    replace (lb + 6 * Z.of_nat (S n)) with (lb + 6 + 6 * Z.of_nat n) by lia.
    apply IH.
    + apply increasing_snoc; assumption.
    + apply Forall_app. split.
      * eapply below_weaken; [|eassumption]. lia.
      * repeat constructor. cbn. lia.
Qed.

Lemma handleExtraBackticks_Spaced (i : Z) (s : ArgumentSplitter.t) :
  next s = EmptyString -> 0 <= present (backticks s) ->
  increasing (args s) ->
  Forall (fun a => originalIndex a < i - present (backticks s)) (args s) ->
  (group s = GroupType.CodeBacktick /\ present (backticks s) <> 0) \/
  group s = GroupType.New ->
  let s' := handleExtraBackticks i s in
  Spaced (i + 1) s' /\ Forall (fun a => originalIndex a < i) (args s') /\
  (group s' = GroupType.CodeBacktick \/ group s' = GroupType.New).
Proof.
  intros Hn Hp Hs Hb Hg. cbn zeta.
  destruct (handleExtraBackticks_Counters i s Hn Hp Hg) as [_ G].
  destruct (handleExtraBackticks_spec i s Hn Hp) as (S1 & _ & S3).
  cbn zeta in S1, S3. set (p := present (backticks s)) in *.
  destruct (emptyCodeTokens_increasing (Z.to_nat (p / 3 / 2)) (i - p) (args s) Hs Hb)
    as [Es Eb].
  rewrite <- S1 in Es, Eb.
  assert (Hdiv : 0 <= p / 3 / 2 /\ 6 * (p / 3 / 2) <= p).
  { Z.to_euclidean_division_equations. lia. }
  rewrite Z2Nat.id in Eb by lia.
  assert (Hstart : group (handleExtraBackticks i s) = GroupType.CodeBacktick ->
                   startOfCurrentGroup (handleExtraBackticks i s) =
                   i - p + 6 * (p / 3 / 2)).
  { intros Ec. destruct (Z.odd (p / 3)) eqn:Eo; [tauto|].
    destruct (negb (p mod 3 =? 0)%Z) eqn:El; [tauto|].
    exfalso. destruct S3 as (_ & _ & _ & G6 & G0).
    apply negb_false_iff, Z.eqb_eq in El.
    rewrite Zodd_mod in Eo. apply Z.eqb_neq in Eo.
    assert (Hcase : p = 0 \/ 6 <= p).
    { Z.to_euclidean_division_equations. lia. }
    destruct Hcase as [H0 | H6].
    - destruct (G0 H0) as [G' _]. rewrite G' in Ec.
      destruct Hg as [[_ Hg] | Hg]; [contradiction | congruence].
    - rewrite (G6 H6) in Ec. discriminate. }
  repeat apply conj.
  - constructor.
    + exact Es.
    + eapply below_weaken; [|exact Eb]. lia.
    + intros Hne. destruct G as [G | G]; [|contradiction].
      rewrite (Hstart G). split; [exact Eb | lia].
  - eapply below_weaken; [|exact Eb]. lia.
  - exact G.
Qed.

Lemma consumeAfterBackticks_Spaced (char : string) (i : Z) (s : ArgumentSplitter.t) :
  Core s -> Spaced (i + 1) s ->
  Forall (fun a => originalIndex a < i) (args s) ->
  group s = GroupType.CodeBacktick \/ group s = GroupType.New ->
  Spaced (i + 1) (consumeAfterBackticks char i s) /\
  Forall (fun a => originalIndex a < i) (args (consumeAfterBackticks char i s)).
Proof.
  intros Hc H Hb Hg. unfold consumeAfterBackticks.
  destruct (GroupType_eqb_spec (group s) GroupType.CodeBacktick) as [Ec | Ec].
  - split.
    + apply appendChar_Spaced_open; [congruence | assumption].
    + now rewrite (proj1 (proj2 (appendChar_frame _ _ _))).
  - destruct Hg as [Hg | Hg]; [contradiction|].
    apply consumeNormalChar_Spaced; [assumption|].
    destruct H as [H1 _ _]. constructor; [assumption | assumption |].
    intros E. contradiction.
Qed.

(** One step of the scan keeps the tokens apart. *)
Lemma consumeChar_Spaced (char : string) (i : Z) (s s' : ArgumentSplitter.t) :
  Inv i s -> Spaced (i - present (backticks s)) s ->
  consumeChar char i s = Normal tt s' ->
  Spaced (i + 1 - present (backticks s')) s' /\
  Forall (fun a => originalIndex a < i) (args s').
Proof.
  intros HI HS. pose proof HI as [Hc Hp Hs Hpa Hq Hw].
  assert (Hbi : Forall (fun a => originalIndex a < i) (args s)).
  { destruct HS as [_ Hb _]. eapply below_weaken; [|exact Hb]. lia. }
  assert (Hafter : forall s1,
             Core s1 -> next s1 = EmptyString -> 0 <= present (backticks s1) ->
             startOfCurrentGroup s1 <= i - present (backticks s1) ->
             increasing (args s1) ->
             Forall (fun a => originalIndex a < i - present (backticks s1)) (args s1) ->
             (group s1 = GroupType.CodeBacktick /\ present (backticks s1) <> 0) \/
             group s1 = GroupType.New ->
             let s2 := consumeAfterBackticks char i (handleExtraBackticks i s1) in
             Spaced (i + 1 - present (backticks s2)) s2 /\
             Forall (fun a => originalIndex a < i) (args s2)).
  { intros s1 C1 N1 P1 St1 I1 B1 G1. cbn zeta.
    destruct (handleExtraBackticks_Inv i s1 C1 P1 St1 G1)
      as (X1 & X2 & X3 & X4 & X5 & _).
    destruct (handleExtraBackticks_Spaced i s1 N1 P1 I1 B1 G1) as (Y1 & Y2 & Y3).
    destruct (consumeAfterBackticks_Spaced char i _ X1 Y1 Y2 Y3) as [Z1 Z2].
    destruct (consumeAfterBackticks_Inv char i _ X1 X2 X3 X4 X5) as [[_ Q1 _ _ _ _] _].
    split; [|exact Z2].
    assert (E0 : present (backticks (consumeAfterBackticks char i
                                       (handleExtraBackticks i s1))) = 0).
    { unfold consumeAfterBackticks. destruct (GroupType.eqb _ _).
      - now rewrite (proj1 (appendChar_frame _ _ _)).
      - now rewrite (proj1 (consumeNormalChar_frame _ _ _)). }
    rewrite E0, Z.sub_0_r. exact Z1. }
  unfold consumeChar.
  destruct (GroupType_eqb_spec (group s) GroupType.DoubleQuote) as [Eq | Eq].
  { intros [= <-]. rewrite (Hq Eq), Z.sub_0_r in HS.
    rewrite (proj1 (consumeNormalChar_frame _ _ _)), (Hq Eq), Z.sub_0_r.
    now apply consumeNormalChar_Spaced. }
  destruct ((char =? backtick) && negb (escaped s)).
  { intros [= <-]. split; [|exact Hbi].
    cbn [setPresent backticks present].
    replace (i + 1 - (present (backticks s) + 1)) with (i - present (backticks s))
      by lia.
    now apply (Spaced_fields _ s). }
  destruct (Z.eqb_spec (present (backticks s)) 0) as [Ez | Ez]; cbn [negb].
  { intros [= <-]. rewrite Ez, Z.sub_0_r in HS.
    rewrite (proj1 (consumeNormalChar_frame _ _ _)), Ez, Z.sub_0_r.
    now apply consumeNormalChar_Spaced. }
  destruct (GroupType.eqb (group s) GroupType.None
            || GroupType.eqb (group s) GroupType.New) eqn:Enn.
  { intros [= <-].
    destruct (resolve_outside i s HI) as (R1 & R2 & R3 & R4 & R5 & R6 & R7);
      [destruct (group s); cbn in Enn; auto; discriminate | assumption |].
    pose proof (pushArg_Spaced _ s Hc HS) as [T1 T2 _].
    apply Hafter; try assumption; rewrite ?R7, ?R3; assumption. }
  destruct (GroupType_eqb_spec (group s) GroupType.CodeBacktick) as [Ec | Ec];
    [|discriminate].
  destruct (Z.eqb_spec (past (backticks s)) 0) as [Ep | Ep]; [discriminate|].
  destruct (Z.ltb_spec (present (backticks s)) (past (backticks s))) as [El | El].
  { intros [= <-].
    rewrite (proj1 (appendChar_frame _ _ _)),
            (proj1 (proj2 (appendChar_frame _ _ _))).
    split; [|exact Hbi].
    apply appendChar_Spaced_open; [congruence|].
    eapply Spaced_mono; [|exact HS]. lia. }
  intros [= <-].
  destruct (resolve_closing i s HI Ec El) as (R1 & R2 & R4 & R5 & R6 & R7).
  set (s0 := setPresent (present (backticks s) - past (backticks s)) s) in *.
  assert (HS0 : Spaced (i - present (backticks s)) s0) by now apply (Spaced_fields _ s).
  assert (Hc0 : Core s0) by (unfold s0, setPresent; apply Core_backticks, Hc).
  pose proof (pushArg_Spaced _ s0 Hc0 HS0) as [T1 T2 _].
  destruct (pushArg_frame s0) as (_ & _ & P3).
  apply Hafter; try assumption.
  eapply below_weaken; [|exact T2].
  rewrite P3. unfold s0, setPresent; cbn [backticks present].
  specialize (Hpa Ec). lia.
Qed.

Lemma Spaced_new : Spaced 0 new.
Proof.
  constructor; cbn; [apply increasing_nil | constructor |].
  intros E. now elim E.
Qed.

Lemma consumeLoop_Spaced (content : string) (n : nat) :
  forall (i : Z) (s s' : ArgumentSplitter.t),
    Inv i s -> Spaced (i - present (backticks s)) s ->
    consumeLoop content n i s = Normal tt s' ->
    Inv (i + Z.of_nat n) s' /\
    Spaced (i + Z.of_nat n - present (backticks s')) s'.
Proof.
  induction n as [|n IH]; intros i s s' HI HS.
  - cbn. intros [= <-]. now rewrite Z.add_0_r.
  - cbn [consumeLoop].
    destruct (consumeChar_Inv (charAt content i) i s HI) as (s1 & E1 & I1 & _).
    rewrite E1. intros H.
    destruct (consumeChar_Spaced _ _ _ _ HI HS E1) as [S1 _].
    replace (i + Z.of_nat (S n)) with (i + 1 + Z.of_nat n) by lia.
    now apply (IH (i + 1) s1).
Qed.

Lemma increasing_at_least_index (l : list SplitArgument) :
  increasing l -> Forall (fun a => 0 <= originalIndex a) l ->
  forall (p : nat) (a : SplitArgument),
    nth_error l p = Some a -> Z.of_nat p <= originalIndex a.
Proof.
  intros Hs Hf p. induction p as [|p IH]; intros a Ha.
  - apply nth_error_In in Ha. rewrite Forall_forall in Hf. apply (Hf _ Ha).
  - assert (Hp : (p < List.length l)%nat).
    { assert (S p < List.length l)%nat by (apply nth_error_Some; congruence). lia. }
    destruct (nth_error l p) as [a'|] eqn:Ea'.
    + specialize (IH a' eq_refl).
      assert (originalIndex a' < originalIndex a)
        by (apply (Hs p (S p)); auto).
      lia.
    + apply nth_error_None in Ea'. lia.
Qed.

(** X8.  On every input on which [split] succeeds, the start offsets of the
    tokens increase strictly along the sequence and each lies within the
    input, so no two tokens start at the same place and there are at most as
    many tokens as the input has characters. *)
Theorem split_offsets_increasing
    (input : string) (r : SplitArgumentArray.t) (s : ArgumentSplitter.t) :
  split input new = Normal r s ->
  increasing (SplitArgumentArray.args r) /\
  Forall (fun a => 0 <= originalIndex a < Z.of_nat (String.length input))
         (SplitArgumentArray.args r) /\
  (List.length (SplitArgumentArray.args r) <= String.length input)%nat.
Proof.
  intros H. pose proof (split_new_inversion _ _ _ H) as (Hscan & -> & _ & Hc & _).
  cbn [SplitArgumentArray.args SplitArgumentArray._args].
  unfold scan in Hscan.
  destruct (consumeLoop_Inv input (String.length input) 0 new Inv_new)
    as (s1 & E1 & _).
  rewrite E1 in Hscan.
  destruct (consumeLoop_Spaced input _ 0 new s1 Inv_new Spaced_new E1) as [I1 S1].
  cbn [Z.add] in I1, S1.
  destruct (consumeChar_Spaced _ _ _ _ I1 S1 Hscan) as [[Hs _ _] Hb].
  destruct Hc as [_ _ Ht _ _].
  assert (Hf : Forall (fun a => 0 <= originalIndex a < Z.of_nat (String.length input))
                      (args s)).
  { rewrite Forall_forall in *. intros a Ha.
    destruct (Ht a Ha) as [[? _] _]. specialize (Hb a Ha). cbn in Hb. lia. }
  repeat apply conj; try assumption.
  destruct (args s) as [|x l] eqn:Ea using rev_ind; [cbn; lia|]. clear IHl.
  rewrite length_app. cbn [List.length].
  assert (Hn : nth_error (l ++ [x]) (List.length l) = Some x).
  { rewrite nth_error_app2 by lia. now rewrite Nat.sub_diag. }
  pose proof (increasing_at_least_index (l ++ [x]) Hs) as Hi.
  assert (Hx : 0 <= originalIndex x < Z.of_nat (String.length input)).
  { rewrite Forall_forall in Hf. apply Hf. apply in_or_app. right. now left. }
  specialize (Hi ltac:(eapply Forall_impl; [|exact Hf]; cbn; intros; lia) _ _ Hn).
  lia.
Qed.

Lemma split_offsets_increasing_witness :
  exists r,
    split "a `b` c" new = Normal r (instanceOf (split "a `b` c" new)) /\
    map originalIndex (SplitArgumentArray.args r) = [0; 2; 6] /\
    increasing (SplitArgumentArray.args r).
Proof.
  eexists. split; [vm_compute; reflexivity|]. split; [reflexivity|].
  apply (split_offsets_increasing "a `b` c" _ (instanceOf (split "a `b` c" new))).
  vm_compute. reflexivity.
Defined.

(** ** [restore] composes *)

Lemma substring_append (s : string) :
  forall a m k : nat,
    substring a m s ++ substring (a + m) k s = substring a (m + k) s.
Proof.
  induction s as [|c s IH]; intros a m k.
  - destruct a, m; destruct k; reflexivity.
  - destruct a as [|a].
    + destruct m as [|m]; [reflexivity|].
      cbn [substring Nat.add append]. f_equal. apply (IH 0%nat).
    + cbn [substring Nat.add]. apply IH.
Qed.

Lemma split_new_restore (input : string) (r : SplitArgumentArray.t)
    (s : ArgumentSplitter.t) (i : Z) (a : SplitArgument) (e : option Z) :
  split input new = Normal r s ->
  SplitArgumentArray.at_ r i = Some a ->
  0 <= originalIndex a <= Z.of_nat (String.length input) /\
  match e with
  | Some j =>
      match SplitArgumentArray.at_ r j with
      | Some b =>
          i <= j ->
          originalIndex a <= originalIndex b <= Z.of_nat (String.length input) /\
          SplitArgumentArray.restore r i e =
          substring (Z.to_nat (originalIndex a))
                    (Z.to_nat (originalIndex b) - Z.to_nat (originalIndex a)) input
      | None =>
          SplitArgumentArray.restore r i e =
          substring (Z.to_nat (originalIndex a))
                    (String.length input - Z.to_nat (originalIndex a)) input
      end
  | None =>
      SplitArgumentArray.restore r i e =
      substring (Z.to_nat (originalIndex a))
                (String.length input - Z.to_nat (originalIndex a)) input
  end.
Proof.
  intros H Ha. pose proof (split_new_inversion _ _ _ H) as (_ & Er & _ & Hc & Hs).
  destruct Hc as [H1 H2 H3 H4 H5]. rewrite Forall_forall in H3.
  assert (Hb : forall k x, SplitArgumentArray.at_ r k = Some x ->
                           0 <= originalIndex x <= Z.of_nat (String.length input)).
  { intros k x Hx. apply at_Some in Hx. destruct Hx as [_ Hx].
    apply nth_error_In in Hx. rewrite Er in Hx. destruct (H3 _ Hx). lia. }
  split; [eauto|].
  pose proof (Hb _ _ Ha) as Ba.
  unfold SplitArgumentArray.restore. rewrite Ha, Er.
  cbn [option_map SplitArgumentArray.original]. rewrite <- Er.
  destruct e as [j|]; [|now apply jsSubstring_to_end].
  destruct (SplitArgumentArray.at_ r j) as [b|] eqn:Hj;
    [|now apply jsSubstring_to_end].
  intros Hij. pose proof (Hb _ _ Hj) as Bb.
  assert (Hle : originalIndex a <= originalIndex b).
  { apply at_Some in Ha. apply at_Some in Hj.
    destruct Ha as [Ra Ha], Hj as [Rb Hj]. rewrite Er in Ha, Hj.
    apply (H2 (Z.to_nat i) (Z.to_nat j)); [lia | assumption | assumption]. }
  split; [lia|]. cbn [option_map].
  rewrite jsSubstring_between by lia. f_equal. lia.
Qed.

(** X9.  On every input on which [split] succeeds, restored ranges join up:
    for tokens [i <= j], the text restored from [i] up to [j] followed by the
    text restored from [j] on (to a later token, or to the end) is the text
    restored from [i] on. *)
Theorem restore_concat
    (input : string) (r : SplitArgumentArray.t) (s : ArgumentSplitter.t)
    (i j : Z) (a b : SplitArgument) (e : option Z) :
  split input new = Normal r s ->
  SplitArgumentArray.at_ r i = Some a -> SplitArgumentArray.at_ r j = Some b ->
  i <= j ->
  match e with Some k => j <= k | None => True end ->
  SplitArgumentArray.restore r i (Some j) ++ SplitArgumentArray.restore r j e =
  SplitArgumentArray.restore r i e.
Proof.
  intros H Ha Hb Hij He.
  destruct (split_new_restore input r s i a (Some j) H Ha) as [Ba R1].
  rewrite Hb in R1. destruct (R1 Hij) as [Bb ->].
  destruct (split_new_restore input r s j b e H Hb) as [_ R2].
  destruct (split_new_restore input r s i a e H Ha) as [_ R3].
  destruct e as [k|].
  - destruct (SplitArgumentArray.at_ r k) as [c|] eqn:Hk.
    + destruct (R2 He) as [Bc ->]. destruct (R3 ltac:(lia)) as [_ ->].
      replace (Z.to_nat (originalIndex b))
        with (Z.to_nat (originalIndex a)
              + (Z.to_nat (originalIndex b) - Z.to_nat (originalIndex a)))%nat at 2
        by lia.
      rewrite substring_append. f_equal. lia.
    + rewrite R2, R3.
      replace (Z.to_nat (originalIndex b))
        with (Z.to_nat (originalIndex a)
              + (Z.to_nat (originalIndex b) - Z.to_nat (originalIndex a)))%nat at 2
        by lia.
      rewrite substring_append. f_equal. lia.
  - rewrite R2, R3.
    replace (Z.to_nat (originalIndex b))
      with (Z.to_nat (originalIndex a)
            + (Z.to_nat (originalIndex b) - Z.to_nat (originalIndex a)))%nat at 2
      by lia.
    rewrite substring_append. f_equal. lia.
Qed.

Lemma restore_concat_witness :
  exists r,
    split "say `hi` x" new = Normal r (instanceOf (split "say `hi` x" new)) /\
    SplitArgumentArray.restore r 0 (Some 1) ++ SplitArgumentArray.restore r 1 None =
    SplitArgumentArray.restore r 0 None.
Proof.
  eexists. split; [vm_compute; reflexivity|].
  apply (restore_concat "say `hi` x" _ (instanceOf (split "say `hi` x" new)) 0 1
           (mkSplitArgument "say" GroupType.None 0)
           (mkSplitArgument "hi" GroupType.CodeBacktick 4) None);
    [vm_compute; reflexivity | reflexivity | reflexivity | lia | exact I].
Defined.

(** ** [shift] and [slice] *)

Lemma jsSliceIndex_range (len : Z) (x : option Z) (default : Z) :
  0 <= len -> 0 <= default <= len -> 0 <= jsSliceIndex len x default <= len.
Proof.
  intros Hl Hd. unfold jsSliceIndex. destruct x as [v|]; [|assumption].
  destruct (Z.ltb_spec v 0); lia.
Qed.

Lemma jsArraySlice_nth {A : Type} (l : list A) (start end_ : option Z) (i : nat) :
  let len := Z.of_nat (List.length l) in
  let k := jsSliceIndex len start 0 in
  let final := jsSliceIndex len end_ len in
  nth_error (jsArraySlice l start end_) i =
  if (Z.of_nat i <? final - k)%Z then nth_error l (Z.to_nat k + i) else None.
Proof.
  cbn zeta. unfold jsArraySlice.
  rewrite nth_error_firstn, nth_error_skipn.
  destruct (Nat.ltb_spec i (Z.to_nat
      (jsSliceIndex (Z.of_nat (List.length l)) end_ (Z.of_nat (List.length l)) -
       jsSliceIndex (Z.of_nat (List.length l)) start 0)));
    destruct (Z.ltb_spec (Z.of_nat i)
      (jsSliceIndex (Z.of_nat (List.length l)) end_ (Z.of_nat (List.length l)) -
       jsSliceIndex (Z.of_nat (List.length l)) start 0)); try reflexivity; lia.
Qed.

Lemma jsArraySlice_length {A : Type} (l : list A) (start end_ : option Z) :
  let len := Z.of_nat (List.length l) in
  Z.of_nat (List.length (jsArraySlice l start end_)) =
  Z.max 0 (jsSliceIndex len end_ len - jsSliceIndex len start 0).
Proof.
  cbn zeta. unfold jsArraySlice. rewrite length_firstn, length_skipn.
  pose proof (jsSliceIndex_range (Z.of_nat (List.length l)) start 0) as H1.
  pose proof (jsSliceIndex_range (Z.of_nat (List.length l)) end_
                (Z.of_nat (List.length l))) as H2.
  lia.
Qed.

Lemma at_unfold (r : SplitArgumentArray.t) (i : Z) :
  SplitArgumentArray.at_ r i =
  if (0 <=? i)%Z then nth_error (SplitArgumentArray.args r) (Z.to_nat i) else None.
Proof.
  unfold SplitArgumentArray.at_, SplitArgumentArray.length.
  destruct (Z.leb_spec 0 i) as [Hi | Hi]; [|reflexivity]. cbn [andb].
  destruct (Z.ltb_spec i (Z.of_nat (List.length (SplitArgumentArray.args r))))
    as [Hl | Hl]; [reflexivity|].
  symmetry. apply nth_error_None. lia.
Qed.

Lemma slice_at (r : SplitArgumentArray.t) (start end_ : option Z) (i : Z) :
  let len := SplitArgumentArray.length r in
  let k := jsSliceIndex len start 0 in
  let final := jsSliceIndex len end_ len in
  SplitArgumentArray.at_ (slice r start end_) i =
  if ((0 <=? i) && (i <? final - k))%Z then SplitArgumentArray.at_ r (k + i)
  else None.
Proof.
  cbn zeta. rewrite !at_unfold.
  unfold slice, SplitArgumentArray.length, SplitArgumentArray.args.
  cbn [SplitArgumentArray._args].
  pose proof (jsSliceIndex_range
                (Z.of_nat (List.length (SplitArgumentArray._args r))) start 0) as Hk.
  destruct (Z.leb_spec 0 i) as [Hi | Hi]; [|reflexivity]. cbn [andb].
  rewrite jsArraySlice_nth. rewrite Z2Nat.id by assumption.
  destruct (Z.ltb_spec i
             (jsSliceIndex (Z.of_nat (List.length (SplitArgumentArray._args r))) end_
                (Z.of_nat (List.length (SplitArgumentArray._args r))) -
              jsSliceIndex (Z.of_nat (List.length (SplitArgumentArray._args r)))
                start 0)); [|reflexivity].
  destruct (Z.leb_spec 0
              (jsSliceIndex (Z.of_nat (List.length (SplitArgumentArray._args r)))
                 start 0 + i)); [|lia].
  f_equal. lia.
Qed.

(** X10.  [slice] keeps the original string and returns the arguments from
    index [k] up to index [final], where an omitted start is 0, an omitted
    end is the length, a negative index counts from the end and both are
    clamped to the sequence: it has [max 0 (final - k)] arguments, and its
    argument [i] is argument [k + i] of the receiver. *)
Theorem slice_arguments (r : SplitArgumentArray.t) (start end_ : option Z) :
  let len := SplitArgumentArray.length r in
  let k := jsSliceIndex len start 0 in
  let final := jsSliceIndex len end_ len in
  SplitArgumentArray.original (slice r start end_) = SplitArgumentArray.original r /\
  SplitArgumentArray.length (slice r start end_) = Z.max 0 (final - k) /\
  0 <= k <= len /\ 0 <= final <= len /\
  forall i : Z,
    SplitArgumentArray.get (slice r start end_) i =
    if ((0 <=? i) && (i <? final - k))%Z then SplitArgumentArray.get r (k + i)
    else None.
Proof.
  cbn zeta. split; [reflexivity|]. split; [apply jsArraySlice_length|].
  assert (Hl : 0 <= SplitArgumentArray.length r)
    by (unfold SplitArgumentArray.length; lia).
  split; [apply jsSliceIndex_range; lia|].
  split; [apply jsSliceIndex_range; lia|].
  intros i. unfold SplitArgumentArray.get.
  pose proof (slice_at r start end_ i) as H. cbn zeta in H. rewrite H.
  destruct (_ && _); reflexivity.
Qed.

(** X11.  [restore] on a slice reads the original string through the
    arguments the slice kept: from argument [i] of the slice to its argument
    [j] it returns what the receiver restores from [k + i] to [k + j]; with
    no end, or an end that is no index of the slice, it runs to the end of
    the original string, past the arguments the slice left out. *)
Theorem slice_restore
    (r : SplitArgumentArray.t) (start end_ : option Z) (i : Z) (e : option Z) :
  let len := SplitArgumentArray.length r in
  let k := jsSliceIndex len start 0 in
  let final := jsSliceIndex len end_ len in
  0 <= i < final - k ->
  SplitArgumentArray.restore (slice r start end_) i e =
  SplitArgumentArray.restore r (k + i)
    match e with
    | Some j => if ((0 <=? j) && (j <? final - k))%Z then Some (k + j) else None
    | None => None
    end.
Proof.
  cbn zeta. intros Hi. unfold SplitArgumentArray.restore.
  change (SplitArgumentArray.original (slice r start end_))
    with (SplitArgumentArray.original r).
  pose proof (slice_at r start end_) as H. cbn zeta in H.
  rewrite (H i).
  destruct (Z.leb_spec 0 i); [|lia].
  destruct (Z.ltb_spec i
              (jsSliceIndex (SplitArgumentArray.length r) end_
                 (SplitArgumentArray.length r) -
               jsSliceIndex (SplitArgumentArray.length r) start 0)); [|lia].
  cbn [andb]. f_equal.
  destruct e as [j|]; [|reflexivity].
  rewrite (H j). destruct (_ && _); reflexivity.
Qed.

Lemma slice_restore_witness :
  SplitArgumentArray.restore
    (slice (SplitArgumentArray.make "a b c"
              [mkSplitArgument "a" GroupType.None 0;
               mkSplitArgument "b" GroupType.None 2;
               mkSplitArgument "c" GroupType.None 4])
           (Some 1) (Some 2))
    0 None = "b c".
Proof.
  rewrite (slice_restore
             (SplitArgumentArray.make "a b c"
                [mkSplitArgument "a" GroupType.None 0;
                 mkSplitArgument "b" GroupType.None 2;
                 mkSplitArgument "c" GroupType.None 4])
             (Some 1) (Some 2) 0 None).
  - reflexivity.
  - vm_compute. split; [discriminate | reflexivity].
Defined.

Lemma shift_at (r : SplitArgumentArray.t) (i : Z) :
  0 <= i ->
  SplitArgumentArray.at_ (snd (shift r)) i = SplitArgumentArray.at_ r (i + 1).
Proof.
  intros Hi. rewrite !at_unfold. unfold shift.
  destruct (Z.leb_spec 0 i); [|lia]. destruct (Z.leb_spec 0 (i + 1)); [|lia].
  replace (Z.to_nat (i + 1)) with (S (Z.to_nat i)) by lia.
  destruct (SplitArgumentArray.args r) as [|x rest] eqn:E; cbn [snd].
  - rewrite E. now destruct (Z.to_nat i).
  - reflexivity.
Qed.

(** X12.  [shift] returns the content of the first argument, or nothing on an
    empty sequence, and leaves what [slice(1)] returns: every argument moves
    down by one index, so [get] and [restore] after the call give what they
    gave one index higher before it. *)
Theorem shift_moves_arguments_down (r : SplitArgumentArray.t) (i : Z) (e : option Z) :
  0 <= i -> match e with Some j => 0 <= j | None => True end ->
  fst (shift r) = SplitArgumentArray.get r 0 /\
  snd (shift r) = slice r (Some 1) None /\
  SplitArgumentArray.length (snd (shift r)) =
    Z.max 0 (SplitArgumentArray.length r - 1) /\
  SplitArgumentArray.get (snd (shift r)) i = SplitArgumentArray.get r (i + 1) /\
  SplitArgumentArray.restore (snd (shift r)) i e =
  SplitArgumentArray.restore r (i + 1) (option_map (fun j => j + 1) e).
Proof.
  intros Hi He. repeat apply conj.
  - unfold shift, SplitArgumentArray.get. rewrite at_unfold. cbn.
    destruct (SplitArgumentArray.args r); reflexivity.
  - unfold shift, slice, jsArraySlice, SplitArgumentArray.args.
    destruct r as [o [|x rest]]; cbn [SplitArgumentArray._args]; [reflexivity|].
    cbn [snd SplitArgumentArray.original]. f_equal.
    cbn [jsSliceIndex Z.ltb Z.compare].
    replace (Z.to_nat (Z.min 1 (Z.of_nat (List.length (x :: rest))))) with 1%nat
      by (cbn [List.length]; lia).
    cbn [skipn]. rewrite firstn_all2; [reflexivity|]. cbn [List.length]. lia.
  - unfold shift, SplitArgumentArray.length, SplitArgumentArray.args.
    destruct r as [o [|x rest]]; cbn [snd SplitArgumentArray._args List.length]; lia.
  - unfold SplitArgumentArray.get. now rewrite shift_at.
  - unfold SplitArgumentArray.restore. rewrite shift_at by assumption.
    assert (Eo : SplitArgumentArray.original (snd (shift r)) =
                 SplitArgumentArray.original r).
    { unfold shift. destruct (SplitArgumentArray.args r); reflexivity. }
    rewrite Eo. f_equal.
    destruct e as [j|]; [|reflexivity]. cbn [option_map]. now rewrite shift_at.
Qed.

Lemma shift_moves_arguments_down_witness :
  SplitArgumentArray.restore
    (snd (shift (SplitArgumentArray.make "!go a b"
                   [mkSplitArgument "!go" GroupType.None 0;
                    mkSplitArgument "a" GroupType.None 4;
                    mkSplitArgument "b" GroupType.None 6])))
    0 None = "a b".
Proof.
  destruct (shift_moves_arguments_down
              (SplitArgumentArray.make "!go a b"
                 [mkSplitArgument "!go" GroupType.None 0;
                  mkSplitArgument "a" GroupType.None 4;
                  mkSplitArgument "b" GroupType.None 6])
              0 None) as (_ & _ & _ & _ & H); [lia | exact I |].
  rewrite H. reflexivity.
Defined.

(** ** A run of backticks shorter than the width of the open code group *)

Lemma step_short_run (a : ascii) (i st pa p : Z) (nx : string)
    (ar : list SplitArgument) :
  0 < p < pa -> isNotBacktick a = true ->
  consumeChar (chr a) i (make false st GroupType.CodeBacktick nx (mkBackticks pa p) ar) =
  Normal tt (make false st GroupType.CodeBacktick
               (nx ++ repeatString backtick (Z.to_nat p)) (mkBackticks pa p) ar).
Proof.
  intros Hp Ha. apply negb_true_iff in Ha.
  unfold consumeChar, appendChar.
  cbn [group escaped next backticks past present GroupType.eqb orb andb negb].
  rewrite Ha. cbn [andb].
  destruct (Z.eqb_spec p 0); [lia|]. cbn [negb].
  destruct (Z.eqb_spec pa 0); [lia|].
  destruct (Z.ltb_spec p pa); [reflexivity | lia].
Qed.

Lemma feed_short_run (v : string) :
  forall (i st pa p : Z) (nx : string) (ar : list SplitArgument),
    0 < p < pa -> forallChars isNotBacktick v = true ->
    feed v i (make false st GroupType.CodeBacktick nx (mkBackticks pa p) ar) =
    Normal tt (make false st GroupType.CodeBacktick
                 (nx ++ repeatString (repeatString backtick (Z.to_nat p))
                                     (String.length v))
                 (mkBackticks pa p) ar).
Proof.
  induction v as [|a v IH]; intros i st pa p nx ar Hp Hv.
  - cbn. now rewrite append_empty_r.
  - cbn [forallChars] in Hv. apply andb_prop in Hv. destruct Hv as [Ha Hv].
    rewrite feed_cons, step_short_run by assumption.
    rewrite IH by assumption.
    cbn [String.length repeatString]. now rewrite append_assoc.
Qed.

Lemma feed_backticks_more (n : nat) :
  forall (i st pa p : Z) (nx : string) (ar : list SplitArgument),
    feed (repeatString backtick n) i
      (make false st GroupType.CodeBacktick nx (mkBackticks pa p) ar) =
    Normal tt (make false st GroupType.CodeBacktick nx
                 (mkBackticks pa (p + Z.of_nat n)) ar).
Proof.
  induction n as [|n IH]; intros i st pa p nx ar.
  - cbn. now rewrite Z.add_0_r.
  - change (repeatString backtick (S n))
      with (String "`"%char (repeatString backtick n)).
    rewrite feed_cons.
    change (consumeChar (chr "`"%char) i
              (make false st GroupType.CodeBacktick nx (mkBackticks pa p) ar))
      with (Normal tt (make false st GroupType.CodeBacktick nx
                         (mkBackticks pa (p + 1)) ar)).
    cbv beta iota. rewrite IH. do 3 f_equal. lia.
Qed.

Lemma repeatString_length (n : nat) :
  String.length (repeatString backtick n) = n.
Proof. induction n as [|n IH]; cbn; [reflexivity | now rewrite IH]. Qed.

(** X13.  Inside a code group of width [k], a run of [m < k] backticks does
    not close the group, and from then on every character that is not a
    backtick is dropped and [m] backticks are appended in its place; a later
    run of [k - m] backticks completes the count and closes the group.  So
    [k] backticks, content [w], [m] backticks, characters [v] and [k - m]
    backticks split into one code token whose content is [w] followed by
    [m] backticks for every character of [v]. *)
Theorem split_short_run_replaces_characters (k m : nat) (w v : string) :
  (1 <= m < k)%nat -> (k <= 3)%nat ->
  w <> EmptyString -> forallChars isCodeChar w = true ->
  v <> EmptyString -> forallChars isNotBacktick v = true ->
  exists s,
    split (repeatString backtick k ++ w ++ repeatString backtick m ++ v
           ++ repeatString backtick (k - m)) new =
    Normal (SplitArgumentArray.make
              (repeatString backtick k ++ w ++ repeatString backtick m ++ v
               ++ repeatString backtick (k - m))
              [mkSplitArgument
                 (w ++ repeatString (repeatString backtick m) (String.length v))
                 GroupType.CodeBacktick 0]) s.
Proof.
  intros Hm Hk Hne Hw Hv Hnb. destruct w as [|a w]; [contradiction|].
  cbn [forallChars] in Hw. apply andb_prop in Hw. destruct Hw as [Ha Hw].
  unfold split. rewrite scan_feed, feed_app, feed_backticks_new by lia.
  cbn [append]. rewrite feed_cons, repeatString_length. cbn [Z.add].
  rewrite step_open_code by (try assumption; lia).
  rewrite feed_app, feed_code by assumption.
  rewrite feed_app, feed_backticks_more.
  rewrite feed_app, feed_short_run by (try assumption; lia).
  rewrite feed_backticks_more.
  replace (0 + Z.of_nat m + Z.of_nat (k - m)) with (Z.of_nat k) by lia.
  rewrite step_end_code by lia.
  cbn [group GroupType.eqb negb args app append chr].
  rewrite Z.add_0_l, Nat2Z.id. eexists. reflexivity.
Qed.

Lemma split_short_run_replaces_characters_witness :
  exists s,
    split "``a`bc`" new =
    Normal (SplitArgumentArray.make "``a`bc`"
              [mkSplitArgument "a``" GroupType.CodeBacktick 0]) s.
Proof.
  apply (split_short_run_replaces_characters 2 1 "a" "bc");
    [lia | lia | discriminate | reflexivity | discriminate | reflexivity].
Defined.
